(** * Messaging and presence core of the career-guidance backend

    A shallow embedding of [backend/controllers/messageController.js]
    (the HTTP handlers [sendMessage], [getConversation], [getChatContacts]
    and [markMessagesAsRead]) and of the socket handlers of
    [backend/server.js], together with the properties the specification
    states about them.

    Conventions.
    - Document ids (Mongo ObjectIds rendered with [toString]) are strings.
    - Instants ([Date], [Date.now()]) are integers: milliseconds since the
      epoch.  A handler that reads the clock takes the reading as [now].
    - A JavaScript [Map] is a [gmap]; a [Set] is a [gset]; a collection of
      the document store is the list of its documents in natural order.
    - Every call that reaches the document store is recorded in a trace, so
      that "performs no persistence update" and "does not consult the user
      store" are statements about the model. *)

From stdpp Require Import gmap strings list fin_maps sorting.
From Stdlib Require Import ZArith.

Local Open Scope Z_scope.

(** ** JavaScript truthiness of strings *)

(** The only falsy string is the empty one. *)
Definition truthy (s : string) : bool := bool_decide (s ≠ "").

(** A property that may be absent ([undefined]): absent is falsy. *)
Definition truthy_opt (o : option string) : bool := from_option truthy false o.

(** ** Stable sorting

    [Array.prototype.sort] is stable, and so is the order in which the
    store returns documents with equal sort keys in this model: an
    insertion sort that never moves an element past an equal one. *)

Section stable_sort.
Context {A : Type} (le : A → A → bool).

Fixpoint insert_sorted (x : A) (l : list A) : list A :=
    match l with
    | [] => [x]
    | y :: l' => if le x y then x :: y :: l' else y :: insert_sorted x l'
    end.

Definition stable_sort (l : list A) : list A := foldr insert_sorted [] l.
End stable_sort.

(** ** Documents *)

Module ObjectId.
(** The strings the driver casts to an ObjectId: twelve bytes, or
    twenty-four hexadecimal digits.  Any other string given where an id is
    expected makes the query fail with a [CastError]. *)
Definition is_hex (c : Ascii.ascii) : bool :=
  let n := Ascii.nat_of_ascii c in
  ((48 <=? n)%nat && (n <=? 57)%nat) || ((65 <=? n)%nat && (n <=? 70)%nat)
  || ((97 <=? n)%nat && (n <=? 102)%nat).

Fixpoint all_hex (s : string) : bool :=
  match s with
  | EmptyString => true
  | String c s' => is_hex c && all_hex s'
  end.

Definition castable (s : string) : bool :=
  (String.length s =? 12)%nat || ((String.length s =? 24)%nat && all_hex s).
End ObjectId.

Module User.
  (** The fields of the user schema that the messaging code reads. *)
Record t := mk {
    _id : string;
    fullName : string;
    profileImage : string;
    role : string;
    mentor : option string
  }.

  (** [.select('fullName profileImage role')], also the second argument of
      [populate]: the document reduced to its id and the fields named. *)
Definition profile (u : t) : t := mk (_id u) (fullName u) (profileImage u) (role u) None.

  (** [User.findById(id)] on an id that casts: the document, or [null]. *)
Definition findById (users : list t) (id : string) : option t :=
    head (filter (λ u, _id u = id) users).

  (** The filters the controller passes to [User.find]. *)
Inductive query :=
  | IdIn (ids : gset string)       (* { _id: { $in: [...] } } *)
  | IdNe (id : string)             (* { _id: { $ne: id } } *)
  | RoleIs (r : string)            (* { role: r } *)
  | MentorIs (id : string).        (* { mentor: id } *)

Definition matches (q : query) (u : t) : Prop :=
    match q with
    | IdIn ids => _id u ∈ ids
    | IdNe id => _id u ≠ id
    | RoleIs r => role u = r
    | MentorIs id => mentor u = Some id
    end.

Global Instance matches_dec q u : Decision (matches q u).
Proof. destruct q; simpl; apply _. Defined.

Definition find (users : list t) (q : query) : list t :=
    filter (matches q) users.
End User.

Module Message.
  (** sender, recipient, content, read flag (default [false]) and
      creation instant, as the data model of the specification lists
      them. *)
Record t := mk {
    _id : nat;
    sender : string;
    recipient : string;
    content : string;
    read : bool;
    createdAt : Z
  }.

Definition set_read (b : bool) (m : t) : t :=
    mk (_id m) (sender m) (recipient m) (content m) b (createdAt m).

  (** [{ sender: s, recipient: r }] *)
Definition from_to (s r : string) (m : t) : Prop :=
    sender m = s ∧ recipient m = r.

  (** [{ $or: [{ sender: a, recipient: b }, { sender: b, recipient: a }] }] *)
Definition between (a b : string) (m : t) : Prop :=
    from_to a b m ∨ from_to b a m.

  (** [{ $or: [{ sender: a }, { recipient: a }] }] *)
Definition involving (a : string) (m : t) : Prop :=
    sender m = a ∨ recipient m = a.

  (** [{ sender: s, recipient: r, read: false }] *)
Definition unread_from_to (s r : string) (m : t) : Prop :=
    from_to s r m ∧ read m = false.

Global Instance from_to_dec s r m : Decision (from_to s r m).
Proof. unfold from_to; apply _. Defined.
Global Instance between_dec a b m : Decision (between a b m).
Proof. unfold between; apply _. Defined.
Global Instance involving_dec a m : Decision (involving a m).
Proof. unfold involving; apply _. Defined.
Global Instance unread_from_to_dec s r m : Decision (unread_from_to s r m).
Proof. unfold unread_from_to; apply _. Defined.

  (** [.sort({ createdAt: 1 })] and [.sort({ createdAt: -1 })].  The store
      promises no order among documents with equal keys; the model keeps
      them in store order, and no property below relies on that. *)
Definition sort_asc : list t → list t :=
    stable_sort (λ x y, bool_decide (createdAt x ≤ createdAt y)).
Definition sort_desc : list t → list t :=
    stable_sort (λ x y, bool_decide (createdAt y ≤ createdAt x)).

  (** [Message.create]: the store assigns a fresh id.  The model takes the
      position of the document, fresh because no handler deletes a
      message; the properties below do not depend on that choice. *)
Definition create (msgs : list t) (s r c : string) (now : Z) : t :=
    mk (length msgs) s r c false now.

  (** [Message.updateMany(filter, { read: true })]: the new collection and
      the number of documents modified. *)
Definition mark_read (s r : string) (msgs : list t) : list t :=
    (λ m, if decide (unread_from_to s r m) then set_read true m else m) <$> msgs.
Definition nModified (s r : string) (msgs : list t) : Z :=
    Z.of_nat (length (filter (unread_from_to s r) msgs)).

  (** A message with its [sender] and [recipient] populated from the user
      collection, with the fields [populate] selects ([null] when the user
      is gone). *)
Record populated := mkPopulated {
    doc : t;
    senderDoc : option User.t;
    recipientDoc : option User.t
  }.

Definition populate (users : list User.t) (m : t) : populated :=
  mkPopulated m (User.profile <$> User.findById users (sender m))
                (User.profile <$> User.findById users (recipient m)).
End Message.

(** ** The process and its store *)

(** The calls a handler makes to the document store. *)
Inductive DbOp :=
| UserFindById (id : string)
| UserFind (q : User.query)
| MessageCreate (id : nat)
| MessageFindById (id : nat)
| MessageFind
| MessageFindOne
| MessageCountDocuments
| MessageUpdateMany (s r : string).

Definition is_update (op : DbOp) : Prop :=
  match op with MessageUpdateMany _ _ | MessageCreate _ => True | _ => False end.
Global Instance is_update_dec op : Decision (is_update op).
Proof. destruct op; simpl; apply _. Defined.

Definition is_user_lookup (op : DbOp) : Prop :=
  match op with UserFindById _ | UserFind _ => True | _ => False end.
Global Instance is_user_lookup_dec op : Decision (is_user_lookup op).
Proof. destruct op; simpl; apply _. Defined.

Record World := mkWorld {
  users : list User.t;
  messages : list Message.t;
  (** [readOperationsCache]: cache key ↦ instant of the last processed
      mark-as-read request *)
  readOperationsCache : gmap string Z;
  (** the store calls made so far, oldest first *)
  trace : list DbOp
}.

Definition log (op : DbOp) (w : World) : World :=
  mkWorld (users w) (messages w) (readOperationsCache w) (trace w ++ [op]).
Definition with_messages (ms : list Message.t) (w : World) : World :=
  mkWorld (users w) ms (readOperationsCache w) (trace w).
Definition with_cache (c : gmap string Z) (w : World) : World :=
  mkWorld (users w) (messages w) c (trace w).

(** ** Handlers: state and exceptions

    A handler runs on the world and either returns a value or throws;
    [throw st msg] is [res.status(st); throw new Error(msg)]. *)

Inductive Outcome (A : Type) :=
| Returned (a : A)
| Thrown (status : Z) (msg : string).
Arguments Returned {A} a.
Arguments Thrown {A} status msg.

Definition Handler (A : Type) : Type := World → Outcome A * World.

Definition ret {A} (a : A) : Handler A := λ w, (Returned a, w).
Definition throw {A} (status : Z) (msg : string) : Handler A :=
  λ w, (Thrown status msg, w).
Definition bind {A B} (m : Handler A) (k : A → Handler B) : Handler B :=
  λ w, match m w with
       | (Returned a, w') => k a w'
       | (Thrown st msg, w') => (Thrown st msg, w')
       end.
(** [try { m } catch (error) { h }] *)
Definition try_catch {A} (m h : Handler A) : Handler A :=
  λ w, match m w with
       | (Thrown _ _, w') => h w'
       | r => r
       end.

Notation "'await' x ← m ; k" := (bind m (λ x, k))
  (at level 10, x name, m at level 100, k at level 200,
   format "'[v' 'await'  x  ←  m ; '/' k ']'").

(** *** The store calls, as handler steps *)

Module Db.
  (** [User.findById(id)] on the id of a stored document, which casts:
      [req.user.id] and the [mentor] field of a document. *)
Definition userFindById (id : string) : Handler (option User.t) :=
    λ w, (Returned (User.findById (users w) id), log (UserFindById id) w).

  (** [User.findById(id)] on a string of the request ([req.body],
      [req.params]): the string is cast first, and a string that does not
      cast makes the call throw a [CastError] before the store is asked;
      no handler sets a status for it, so the answer is 500.  The ids of
      stored documents are ObjectIds, so a string that is the id of a
      stored user casts. *)
Definition userFindByIdCast (id : string) : Handler (option User.t) :=
  λ w, match User.findById (users w) id with
       | Some u => (Returned (Some u), log (UserFindById id) w)
       | None =>
           if ObjectId.castable id then (Returned None, log (UserFindById id) w)
           else (Thrown 500 ("Cast to ObjectId failed for value " +:+ id), w)
       end.

Definition userFind (q : User.query) : Handler (list User.t) :=
    λ w, (Returned (User.find (users w) q), log (UserFind q) w).

Definition messageCreate (s r c : string) (now : Z) : Handler Message.t :=
    λ w, let m := Message.create (messages w) s r c now in
         (Returned m, log (MessageCreate (Message._id m)) (with_messages (messages w ++ [m]) w)).

Definition messageFindByIdPopulated (id : nat) : Handler (option Message.populated) :=
    λ w, (Returned (Message.populate (users w)
                      <$> head (filter (λ m, Message._id m = id) (messages w))),
          log (MessageFindById id) w).

  (** [Message.find(filter).sort({ createdAt: 1 }).populate(...)] *)
Definition messageFindPopulated (P : Message.t → Prop) `{!∀ m, Decision (P m)} :
    Handler (list Message.populated) :=
  λ w, (Returned (Message.populate (users w) <$> Message.sort_asc (filter P (messages w))),
        log MessageFind w).

  (** [Message.find(filter).sort({ createdAt: -1 })] *)
Definition messageFindDesc (P : Message.t → Prop) `{!∀ m, Decision (P m)} :
    Handler (list Message.t) :=
  λ w, (Returned (Message.sort_desc (filter P (messages w))), log MessageFind w).

  (** [Message.findOne(filter).sort({ createdAt: -1 })] *)
Definition messageFindLatest (P : Message.t → Prop) `{!∀ m, Decision (P m)} :
      Handler (option Message.t) :=
    λ w, (Returned (head (Message.sort_desc (filter P (messages w)))), log MessageFindOne w).

Definition messageCountDocuments (P : Message.t → Prop) `{!∀ m, Decision (P m)} :
      Handler Z :=
    λ w, (Returned (Z.of_nat (length (filter P (messages w)))), log MessageCountDocuments w).

  (** [Message.updateMany({ sender: s, recipient: r, read: false }, { read: true })];
      the result is the [nModified] of the driver's report: the number of
      documents the update changed. *)
Definition messageMarkRead (s r : string) : Handler Z :=
    λ w, (Returned (Message.nModified s r (messages w)),
          log (MessageUpdateMany s r) (with_messages (Message.mark_read s r (messages w)) w)).
End Db.

(** ** HTTP responses *)

(** One row of the contact list. *)
Record Contact := mkContact {
  contactId : string;
  contactName : string;        (* fullName *)
  contactImage : string;       (* profileImage *)
  contactRole : string;
  unreadCount : Z;
  lastMessageTime : string
}.

Inductive Body :=
| MessageData (m : option Message.populated)
| ConversationData (ms : list Message.populated)
| ContactsData (cs : list Contact)
| ReadReceipt (message : string) (count : Z) (cached : bool)
| Failure (message : string).

Record Response := mkResponse { status : Z; body : Body }.

(** [res.status(st).json(b)] *)
Definition json (st : Z) (b : Body) : Handler Response := ret (mkResponse st b).

(** What the client receives: the JSON a handler sent, or, when it threw,
    the error with the status the handler had set. *)
Definition respond (h : Handler Response) (w : World) : Response * World :=
  match h w with
  | (Returned r, w') => (r, w')
  | (Thrown st msg, w') => (mkResponse st (Failure msg), w')
  end.

(** The error taxonomy of the specification, read off the status code. *)
Inductive ErrorKind := ValidationError | NotFoundError | InternalError.

Definition error_kind (r : Response) : option ErrorKind :=
  match body r with
  | Failure _ =>
      Some (if decide (status r = 400) then ValidationError
            else if decide (status r = 404) then NotFoundError
            else InternalError)
  | _ => None
  end.

(** ** messageController.js *)

(** [sendMessage]: [userId] is [req.user.id]; [recipientId] and [content]
    are the two properties of [req.body], either of which may be absent. *)
Definition sendMessage (userId : string) (recipientId content : option string)
    (now : Z) : Handler Response :=
  if negb (truthy_opt recipientId) || negb (truthy_opt content)
  then throw 400 "Please provide recipient and message content"
  else
    let recipientId := default "" recipientId in
    let content := default "" content in
    await recipient ← Db.userFindByIdCast recipientId;
    match recipient with
    | None => throw 404 "Recipient not found"
    | Some _ =>
        await message ← Db.messageCreate userId recipientId content now;
        await populatedMessage ← Db.messageFindByIdPopulated (Message._id message);
        json 201 (MessageData populatedMessage)
    end.

(** [getConversation]: [me] is [req.user.id], [userId] is
    [req.params.userId].  The documents are read, then the unread ones
    addressed to [me] are updated in the store, then the documents that
    were read are sent. *)
Definition getConversation (me userId : string) : Handler Response :=
  await user ← Db.userFindByIdCast userId;
  match user with
  | None => throw 404 "User not found"
  | Some _ =>
      await messages ← Db.messageFindPopulated (Message.between me userId);
      await _ ← Db.messageMarkRead userId me;
      json 200 (ConversationData messages)
  end.

(** [markMessagesAsRead] *)

Definition cacheKey (recipientId senderId : string) : string :=
  recipientId +:+ "-" +:+ senderId.

(** the clean-up loop: drop every entry older than one minute *)
Definition evict_old (now : Z) (cache : gmap string Z) : gmap string Z :=
  filter (λ kv, ¬ (now - kv.2 > 60000)) cache.

Definition set_cache (c : gmap string Z) : Handler unit :=
  λ w, (Returned (), with_cache c w).

(** [me] is [req.user.id] (the recipient), [senderId] is
    [req.params.senderId], [now] is [Date.now()]. *)
Definition markMessagesAsRead (me senderId : string) (now : Z) : Handler Response :=
  λ w,
    let recipientId := me in
    let key := cacheKey recipientId senderId in
    let lastOperation := default 0 (readOperationsCache w !! key) in
    if decide (now - lastOperation < 5000)
    then json 200 (ReadReceipt "Messages already marked as read recently" 0 true) w
    else
      (await _ ← set_cache (evict_old now (<[key := now]> (readOperationsCache w)));
       await sender ← Db.userFindByIdCast senderId;
       match sender with
       | None => throw 404 "Sender not found"
       | Some _ =>
           await nModified ← Db.messageMarkRead senderId recipientId;
           json 200 (ReadReceipt "Messages marked as read" nModified false)
       end) w.

(** [getChatContacts] *)

Fixpoint for_each {A B} (f : A → Handler B) (l : list A) : Handler (list B) :=
  match l with
  | [] => ret []
  | x :: l' =>
      await y ← f x;
      await ys ← for_each f l';
      ret (y :: ys)
  end.

(** The ids of the other party of each message of [me]. *)
Definition messageUserIds (me : string) (messages : list Message.t) : gset string :=
  foldl (λ ids message,
           let ids := if decide (Message.sender message ≠ me)
                      then ids ∪ {[Message.sender message]} else ids in
           if decide (Message.recipient message ≠ me)
           then ids ∪ {[Message.recipient message]} else ids)
        ∅ messages.

(** The [switch] on the role of the requester. *)
Definition roleContacts (currentUser : User.t) : Handler (list User.t) :=
  if decide (User.role currentUser = "user") then
    await contacts ←
      match User.mentor currentUser with
      | Some mentorId =>
          await mentor ← Db.userFindById mentorId;
          ret (match mentor with Some m => [m] | None => [] end)
      | None => ret []
      end;
    await admins ← Db.userFind (User.RoleIs "admin");
    let contacts := contacts ++ admins in
    await mentors ← Db.userFind (User.RoleIs "mentor");
    ret (contacts ++ mentors)
  else if decide (User.role currentUser = "mentor") then
    await mentees ← Db.userFind (User.MentorIs (User._id currentUser));
    await mentorAdmins ← Db.userFind (User.RoleIs "admin");
    await allUsers ← Db.userFind (User.RoleIs "user");
    ret ([] ++ mentees ++ mentorAdmins ++ allUsers)
  else if decide (User.role currentUser = "admin") then
    Db.userFind (User.IdNe (User._id currentUser))
  else
    Db.userFind (User.RoleIs "admin").

(** Append to [allContacts] every contact whose id is not in it yet. *)
Definition mergeContacts (contactsWithMessages contacts : list User.t) : list User.t :=
  foldl (λ allContacts contact,
           if decide (Exists (λ c, User._id c = User._id contact) allContacts)
           then allContacts else allContacts ++ [contact])
        contactsWithMessages contacts.

Section chat_contacts.
(** The locale-dependent primitives of the runtime: string collation and
    the two date formats, and the day of the week of an instant. *)
Context (localeCompare : string → string → Z).
Context (toLocaleTimeString toLocaleDateString : Z → string).
Context (getDay : Z → nat).

Definition days : list string := ["Sun"; "Mon"; "Tue"; "Wed"; "Thu"; "Fri"; "Sat"].

Definition formatLastMessageTime (now : Z) (latestMessage : option Message.t) : string :=
  match latestMessage with
  | None => ""
  | Some latest =>
      let messageDate := Message.createdAt latest in
      let diffDays := (now - messageDate) `div` (1000 * 60 * 60 * 24) in
      if decide (diffDays = 0) then toLocaleTimeString messageDate
      else if decide (diffDays = 1) then "Yesterday"
      else if decide (diffDays < 7) then default "" (days !! getDay messageDate)
      else toLocaleDateString messageDate
  end.

Definition contactStats (currentUser : User.t) (now : Z) (contact : User.t) :
    Handler Contact :=
  await unread ← Db.messageCountDocuments
                   (Message.unread_from_to (User._id contact) (User._id currentUser));
  await latestMessage ← Db.messageFindLatest
                          (Message.between (User._id currentUser) (User._id contact));
  ret (mkContact (User._id contact) (User.fullName contact) (User.profileImage contact)
         (User.role contact) unread (formatLastMessageTime now latestMessage)).

(** The comparison function passed to [sort]. *)
Definition compareContacts (a b : Contact) : Z :=
  if decide (unreadCount b ≠ unreadCount a) then unreadCount b - unreadCount a
  else if truthy (lastMessageTime a) && truthy (lastMessageTime b)
  then localeCompare (lastMessageTime b) (lastMessageTime a)
  else if truthy (lastMessageTime a) && negb (truthy (lastMessageTime b)) then -1
  else if negb (truthy (lastMessageTime a)) && truthy (lastMessageTime b) then 1
  else localeCompare (contactName a) (contactName b).

(** [array.sort(compare)]: [a] stays before [b] when [compare(a, b) <= 0]. *)
Definition sortContacts : list Contact → list Contact :=
  stable_sort (λ a b, bool_decide (compareContacts a b ≤ 0)).

(** [me] is [req.user.id]; [now] is [new Date()]. *)
Definition getChatContacts (me : string) (now : Z) : Handler Response :=
  await currentUser ← Db.userFindById me;
  match currentUser with
  | None => throw 500 "Cannot read properties of null (reading '_id')"
  | Some currentUser =>
      await messages ← Db.messageFindDesc (Message.involving (User._id currentUser));
      let messageUserIds := messageUserIds (User._id currentUser) messages in
      await contactsWithMessages ←
        (if decide (0 < size messageUserIds)%nat
         then Db.userFind (User.IdIn messageUserIds) else ret []);
      await contacts ←
        try_catch (roleContacts currentUser) (Db.userFind (User.RoleIs "admin"));
      let allContacts := mergeContacts contactsWithMessages contacts in
      await contactsWithUnreadCounts ← for_each (contactStats currentUser now) allContacts;
      json 200 (ContactsData (sortContacts contactsWithUnreadCounts))
  end.

End chat_contacts.

(** ** server.js: the socket layer *)

Module Server.

Record Socket := mkSocket {
  id : string;
  userId : string;
  userRole : string
}.

(** The value stored in [onlineUsers] for a user id. *)
Record ConnectionRecord := mkRecord {
  recUserId : string;
  recUserRole : string;
  socketId : string;
  lastActive : Z
}.

(** The user documents embedded in a message sent over the socket. *)
Record Party := mkParty {
  party_id : option string;        (* _id *)
  partyName : option string        (* fullName *)
}.

(** The argument of a [send_message] event; clients send arbitrary JSON,
    so every property may be absent. *)
Record MessagePayload := mkPayload {
  message_id : option string;      (* _id *)
  sender : option Party;
  recipient : option Party;
  content : option string
}.

Record TypingData := mkTyping {
  recipientId : option string;
  typing : option bool
}.

Inductive Event :=
| online_users (ids : list string)
| new_message (message : MessagePayload)
| message_sent (messageId : option string) (recipientId : string) (timestamp : Z)
| user_typing (userId : string) (typing : option bool).

(** A connected socket and the rooms it is in. *)
Record Connection := mkConnection {
  socket : Socket;
  rooms : gset string
}.

Record State := mkState {
  onlineUsers : gmap string ConnectionRecord;
  connections : list Connection;
  (** every event delivered so far, with the id of the receiving socket *)
  delivered : list (string * Event)
}.

Definition initial : State := mkState ∅ [] [].

(** [Array.from(onlineUsers.keys())]: the ids registered, each once.  A
    [Map] lists them in insertion order, the model in the order of the
    keys; the properties below are about membership and multiplicity
    only. *)
Definition keys (m : gmap string ConnectionRecord) : list string :=
  (map_to_list m).*1.

Definition with_onlineUsers (m : gmap string ConnectionRecord) (st : State) : State :=
  mkState m (connections st) (delivered st).

Definition deliver (to : list Connection) (e : Event) (st : State) : State :=
  mkState (onlineUsers st) (connections st)
          (delivered st ++ ((λ c, (id (socket c), e)) <$> to)).

(** [io.emit(e)]: every connected socket *)
Definition io_emit (e : Event) (st : State) : State :=
  deliver (connections st) e st.

(** [io.to(room).emit(e)]: every connected socket in the room *)
Definition io_to_emit (room : string) (e : Event) (st : State) : State :=
  deliver (filter (λ c, room ∈ rooms c) (connections st)) e st.

(** [socket.emit(e)]: this socket *)
Definition socket_emit (s : Socket) (e : Event) (st : State) : State :=
  mkState (onlineUsers st) (connections st) (delivered st ++ [(id s, e)]).

(** The authentication middleware: [decoded] is the result of
    [jwt.verify] on the handshake token ([None] when there is no token or
    verification throws), with the [id] and [role] of its payload. *)
Definition authenticate (socketId : string)
    (decoded : option (option string * option string)) : option Socket :=
  match decoded with
  | None => None
  | Some (uid, urole) =>
      if truthy_opt uid
      then Some (mkSocket socketId (default "" uid)
                   (if truthy_opt urole then default "" urole else "user"))
      else None
  end.

(** [io.on('connection', ...)]: the transport has added the socket, in
    the room of its own id; the handler registers the user, joins the
    personal and the role room and broadcasts the online list. *)
Definition on_connection (s : Socket) (now : Z) (st : State) : State :=
  let st := with_onlineUsers
              (<[userId s := mkRecord (userId s) (userRole s) (id s) now]> (onlineUsers st)) st in
  let joined := {[id s]} ∪ {[userId s]}
                ∪ (if truthy (userRole s) then {[ "role:" +:+ userRole s ]} else ∅) in
  let st := mkState (onlineUsers st) (connections st ++ [mkConnection s joined]) (delivered st) in
  io_emit (online_users (keys (onlineUsers st))) st.

Definition on_get_online_users (s : Socket) (st : State) : State :=
  socket_emit s (online_users (keys (onlineUsers st))) st.

(** How an event handler ends: normally, or with an uncaught
    [TypeError]. *)
Inductive Completion := Done | TypeError.

(** [socket.on('send_message', ...)] *)

(** [message.recipient._id], when [message], [message.recipient] and
    [message.recipient._id] are all truthy *)
Definition valid_recipient (message : option MessagePayload) : option string :=
  match message with
  | Some m =>
      match recipient m with
      | Some r => if truthy_opt (party_id r) then party_id r else None
      | None => None
      end
  | None => None
  end.

Definition touch (now : Z) (userData : ConnectionRecord) : ConnectionRecord :=
  mkRecord (recUserId userData) (recUserRole userData) (socketId userData) now.

Definition on_send_message (s : Socket) (message : option MessagePayload) (now : Z)
    (st : State) : State * Completion :=
  match message, valid_recipient message with
  | Some message, Some recipient_id =>
      let st :=
        match onlineUsers st !! userId s with
        | Some userData =>
            with_onlineUsers (<[userId s := touch now userData]> (onlineUsers st)) st
        | None => st
        end in
      let st := io_to_emit recipient_id (new_message message) st in
      let st := socket_emit s (message_sent (message_id message) recipient_id now) st in
      (* console.log(`Message sent from ${message.sender.fullName} ...`) *)
      match sender message with
      | Some _ => (st, Done)
      | None => (st, TypeError)
      end
  | _, _ => (st, Done)
  end.

(** [socket.on('typing', ...)] *)
Definition on_typing (s : Socket) (data : option TypingData) (st : State) : State :=
  match data with
  | Some d =>
      if truthy_opt (recipientId d)
      then io_to_emit (default "" (recipientId d)) (user_typing (userId s) (typing d)) st
      else st
  | None => st
  end.

(** [socket.on('disconnect', ...)]: the transport has already removed the
    socket from every room. *)
Definition on_disconnect (s : Socket) (st : State) : State :=
  let st := mkState (onlineUsers st)
                    (filter (λ c, id (socket c) ≠ id s) (connections st)) (delivered st) in
  let st := with_onlineUsers (delete (userId s) (onlineUsers st)) st in
  io_emit (online_users (keys (onlineUsers st))) st.

(** The connection registry of the specification. *)
Inductive RegistryOp :=
| register (s : Socket) (now : Z)
| unregister (s : Socket).

Definition step (st : State) (op : RegistryOp) : State :=
  match op with
  | register s now => on_connection s now st
  | unregister s => on_disconnect s st
  end.

Definition run (ops : list RegistryOp) (st : State) : State := foldl step st ops.

Definition listOnline (st : State) : list string := keys (onlineUsers st).

End Server.

(** ** messageController.js: the conversation previews *)

(** [.select('fullName profileImage role')], also the second argument of
    [populate]: the document reduced to its id and the fields named. *)
Definition select_profile (u : User.t) : User.t :=
  User.mk (User._id u) (User.fullName u) (User.profileImage u) (User.role u) None.

Definition populate_profile (users : list User.t) (m : Message.t) : Message.populated :=
  Message.mkPopulated m
    (select_profile <$> User.findById users (Message.sender m))
    (select_profile <$> User.findById users (Message.recipient m)).

(** [userIds.add(x)] on a [Set]: iteration follows insertion order, and
    adding a member again changes nothing. *)
Definition set_add (x : string) (s : list string) : list string :=
  if decide (x ∈ s) then s else s ++ [x].

(** The [forEach] of [getConversations] over the messages. *)
Definition conversationUserIds (currentUserId : string) (messages : list Message.t) :
    list string :=
  foldl (λ userIds message,
           let userIds := if decide (Message.sender message ≠ currentUserId)
                          then set_add (Message.sender message) userIds else userIds in
           if decide (Message.recipient message ≠ currentUserId)
           then set_add (Message.recipient message) userIds else userIds)
        [] messages.

(** One element of the array [getConversations] answers. *)
Record Conversation := mkConversation {
  previewUser : option User.t;                  (* user *)
  latestMessage : option Message.populated;
  previewUnread : Z                             (* unreadCount *)
}.

Record Listing := mkListing {
  listingStatus : Z;
  conversations : list Conversation
}.

(** [Message.findOne(filter).sort({ createdAt: -1 }).populate(...)] *)
Definition messageFindLatestPopulated (P : Message.t → Prop) `{!∀ m, Decision (P m)} :
    Handler (option Message.populated) :=
  λ w, (Returned (populate_profile (users w)
                    <$> head (Message.sort_desc (filter P (messages w)))),
        log MessageFindOne w).

(** [User.findById(id).select('fullName profileImage role')] *)
Definition userFindByIdSelected (id : string) : Handler (option User.t) :=
  λ w, (Returned (select_profile <$> User.findById (users w) id), log (UserFindById id) w).

(** The body of the loop over [userIds]. *)
Definition conversationPreview (currentUserId userId : string) : Handler Conversation :=
  await latest ← messageFindLatestPopulated (Message.between currentUserId userId);
  await unread ← Db.messageCountDocuments (Message.unread_from_to userId currentUserId);
  await user ← userFindByIdSelected userId;
  ret (mkConversation user latest unread).

(** [new Date(c.latestMessage.createdAt)] *)
Definition latestCreatedAt (c : Conversation) : option Z :=
  (λ p, Message.createdAt (Message.doc p)) <$> latestMessage c.

(** [conversations.sort((a, b) => new Date(b.latestMessage.createdAt)
    - new Date(a.latestMessage.createdAt))]: with two elements or more
    the comparison function reads [latestMessage.createdAt] of each, and
    throws a [TypeError] on a [null] one. *)
Definition sortConversations (cs : list Conversation) : Handler (list Conversation) :=
  if decide ((length cs < 2)%nat ∨ Forall (λ c, is_Some (latestMessage c)) cs)
  then ret (stable_sort
              (λ a b, bool_decide (default 0 (latestCreatedAt b)
                                   - default 0 (latestCreatedAt a) ≤ 0)) cs)
  else throw 500 "Cannot read properties of null (reading 'createdAt')".

(** [getConversations]: [currentUserId] is [req.user.id]. *)
Definition getConversations (currentUserId : string) : Handler Listing :=
  await messages ← Db.messageFindDesc (Message.involving currentUserId);
  let userIds := conversationUserIds currentUserId messages in
  await previews ← for_each (conversationPreview currentUserId) userIds;
  await sorted ← sortConversations previews;
  ret (mkListing 200 sorted).

(** ** authMiddleware.js and the message routes *)

(** [s.split(' ')] *)
Fixpoint split_from (piece s : string) : list string :=
  match s with
  | EmptyString => [piece]
  | String c s' =>
      if Ascii.eqb c (Ascii.ascii_of_nat 32) then piece :: split_from "" s'
      else split_from (piece +:+ String c "") s'
  end.
Definition split_space (s : string) : list string := split_from "" s.

(** The token [protect] takes from the [Authorization] header:
    [authorization.split(' ')[1]] when the header starts with [Bearer]. *)
Definition bearer_token (authorization : option string) : option string :=
  match authorization with
  | Some h =>
      if truthy h && String.prefix "Bearer" h then split_space h !! 1%nat else None
  | None => None
  end.

(** How a middleware ends: it calls [next()], with [req.user] set, or it
    answers itself. *)
Inductive Gate :=
| Next (user : User.t)
| Refused (status : Z) (message : string).

Section routes.
(** [jwt.verify(token, JWT_SECRET)]: the [id] of the payload, or [None]
    when verification throws.  Every token the application signs carries
    the id of a user. *)
Context (verify : string → option string).
Context (localeCompare : string → string → Z).
Context (toLocaleTimeString toLocaleDateString : Z → string).
Context (getDay : Z → nat).

(** [protect].  A user that is not found leaves [req.user] null, the
    logging that follows throws on [req.user._id], and the inner [catch]
    answers as for a token that fails; so it does when the id of the
    token does not cast and the lookup itself throws. *)
Definition protect (authorization : option string) (w : World) : Gate * World :=
  match bearer_token authorization with
  | Some token =>
      if truthy token then
        match verify token with
        | Some id =>
            match User.findById (users w) id with
            | Some user => (Next user, log (UserFindById id) w)
            | None =>
                (Refused 401 "Not authorized, token failed",
                 if ObjectId.castable id then log (UserFindById id) w else w)
            end
        | None => (Refused 401 "Not authorized, token failed", w)
        end
      else (Refused 401 "Not authorized, no token provided", w)
  | None => (Refused 401 "Not authorized, no token provided", w)
  end.

(** [authorize(...roles)], after [protect]. *)
Definition authorize (roles : list string) (user : User.t) : Gate :=
  if decide (User.role user ∈ roles) then Next user
  else Refused 403 ("User role " +:+ User.role user
                    +:+ " is not authorized to access this resource").

Inductive Method := GET | POST | PUT.

(** A request to the message router: the path below [/api/messages], cut
    at the slashes. *)
Record HttpRequest := mkRequest {
  method : Method;
  path : list string;
  authorization : option string;
  bodyRecipientId : option string;
  bodyContent : option string
}.

Inductive Answer :=
| Standard (r : Response)
| Previews (l : Listing).

Definition standard (rw : Response * World) : Answer * World := (Standard rw.1, rw.2).

(** The answer of the framework when no route matches. *)
Definition notFound (req : HttpRequest) : Response :=
  mkResponse 404
    (Failure ("Cannot " +:+ match method req with GET => "GET" | POST => "POST" | PUT => "PUT" end
              +:+ " /api/messages"
              +:+ foldr (λ segment rest, "/" +:+ segment +:+ rest) "" (path req))).

(** The router: [protect] on every route, then the first route that
    matches, [/contacts] being registered before [/:userId]. *)
Definition route (req : HttpRequest) (now : Z) (w : World) : Answer * World :=
  match protect (authorization req) w with
  | (Refused st msg, w') => (Standard (mkResponse st (Failure msg)), w')
  | (Next user, w') =>
      let me := User._id user in
      match method req, path req with
      | GET, [] =>
          match getConversations me w' with
          | (Returned l, w'') => (Previews l, w'')
          | (Thrown st msg, w'') => (Standard (mkResponse st (Failure msg)), w'')
          end
      | POST, [] =>
          standard (respond (sendMessage me (bodyRecipientId req) (bodyContent req) now) w')
      | GET, [segment] =>
          if decide (segment = "contacts")
          then standard (respond (getChatContacts localeCompare toLocaleTimeString
                                    toLocaleDateString getDay me now) w')
          else standard (respond (getConversation me segment) w')
      | PUT, [senderId; action] =>
          if decide (action = "read")
          then standard (respond (markMessagesAsRead me senderId now) w')
          else (Standard (notFound req), w')
      | _, _ => (Standard (notFound req), w')
      end
  end.

(** A sequence of requests, each with the clock reading at its arrival. *)
Definition serve (w : World) (reqs : list (HttpRequest * Z)) : World :=
  foldl (λ w rq, (route rq.1 rq.2 w).2) w reqs.

End routes.

(** ** server.js: the events of a socket, in sequence *)

Inductive SocketEvent :=
| Connect (s : Server.Socket) (now : Z)
| GetOnlineUsers (s : Server.Socket)
| SendMessage (s : Server.Socket) (message : option Server.MessagePayload) (now : Z)
| Typing (s : Server.Socket) (data : option Server.TypingData)
| Disconnect (s : Server.Socket).

Definition handle (st : Server.State) (e : SocketEvent) : Server.State :=
  match e with
  | Connect s now => Server.on_connection s now st
  | GetOnlineUsers s => Server.on_get_online_users s st
  | SendMessage s message now => (Server.on_send_message s message now st).1
  | Typing s data => Server.on_typing s data st
  | Disconnect s => Server.on_disconnect s st
  end.

Definition play (events : list SocketEvent) : Server.State := foldl handle Server.initial events.

(** * Specification

    The vocabulary in which the properties below are stated. *)

Definition earlier (x y : Message.t) : Prop := Message.createdAt x ≤ Message.createdAt y.

(** Ids are the primary key of the user collection. *)
Definition unique_ids (users : list User.t) : Prop := NoDup (User._id <$> users).

(** What [updateMany] leaves of a document: only the read flag can change,
    and it changes exactly for the unread documents from [s] to [r]. *)
Definition marked (s r : string) (m m' : Message.t) : Prop :=
  Message._id m' = Message._id m ∧ Message.sender m' = Message.sender m ∧
  Message.recipient m' = Message.recipient m ∧ Message.content m' = Message.content m ∧
  Message.createdAt m' = Message.createdAt m ∧
  Message.read m' = (if decide (Message.from_to s r m) then true else Message.read m).

(** The documents of a response of [getConversation]. *)
Definition returned_docs (r : Response) : option (list Message.t) :=
  match body r with
  | ConversationData ms => Some (Message.doc <$> ms)
  | _ => None
  end.

(** The sentence of the specification, taken literally: the call
    succeeds; the array has every message between [a] and [b] and only
    those, in ascending order of creation; afterwards every message from
    [b] to [a] is read in the store, and the array holds that message as
    it now is in the store, with [read: true]. *)
Definition history_as_specified (w : World) (a b : string) : Prop :=
  ∃ returned,
    let w' := (respond (getConversation a b) w).2 in
    status (respond (getConversation a b) w).1 = 200 ∧
    returned_docs (respond (getConversation a b) w).1 = Some returned ∧
    (∀ m, m ∈ messages w → Message.between a b m →
          ∃ r, r ∈ returned ∧ Message._id r = Message._id m) ∧
    (∀ r, r ∈ returned → Message.between a b r) ∧
    StronglySorted earlier returned ∧
    (∀ m, m ∈ messages w' → Message.from_to b a m →
          Message.read m = true ∧ m ∈ returned).

(** What the handler does: as above, except that the array holds the
    documents as they were stored when the call was made, so that a
    message that was unread is returned with [read: false]; the store is
    otherwise unchanged. *)
Definition history_as_implemented (w : World) (a b : string) : Prop :=
  ∃ returned,
    let w' := (respond (getConversation a b) w).2 in
    status (respond (getConversation a b) w).1 = 200 ∧
    returned_docs (respond (getConversation a b) w).1 = Some returned ∧
    (∀ m, m ∈ messages w → Message.between a b m →
          ∃ r, r ∈ returned ∧ Message._id r = Message._id m) ∧
    (∀ r, r ∈ returned → Message.between a b r) ∧
    StronglySorted earlier returned ∧
    (∀ m, m ∈ messages w' → Message.from_to b a m → Message.read m = true) ∧
    returned ≡ₚ filter (Message.between a b) (messages w) ∧
    Forall2 (marked b a) (messages w) (messages w') ∧
    users w' = users w.

Module Scenario.
(** User A has sent "Hello" to user B, who has not read it yet. *)
Definition A : User.t := User.mk "A" "Aisha" "a.png" "user" (Some "M").
Definition B : User.t := User.mk "B" "Bilal" "b.png" "user" None.
Definition M : User.t := User.mk "M" "Maryam" "m.png" "mentor" None.
Definition Z : User.t := User.mk "Z" "Zara" "z.png" "admin" None.
Definition empty : World := mkWorld [A; B; M; Z] [] ∅ [].

Definition hello_sent : World :=
  (respond (sendMessage "A" (Some "B") (Some "Hello") 1000) empty).2.


(** A is connected through socket s1; B is not connected. *)
Definition s1 : Server.Socket := Server.mkSocket "s1" "A" "user".
Definition only_A_online : Server.State :=
  Server.run [Server.register s1 5] Server.initial.
Definition hello : Server.MessagePayload :=
  Server.mkPayload (Some "m1") (Some (Server.mkParty (Some "A") (Some "Aisha")))
    (Some (Server.mkParty (Some "B") (Some "Bilal"))) (Some "Hello").
End Scenario.





(** A mark-as-read request of [me] for [senderId] at [now] falls in the
    throttle window of the last processed one. *)
Definition throttled (w : World) (me senderId : string) (now : Z) : Prop :=
  now - default 0 (readOperationsCache w !! cacheKey me senderId) < 5000.

(** The store calls made after the world [w0] was observed. *)
Definition calls_since (w0 w : World) : list DbOp := drop (length (trace w0)) (trace w).

Definition throttled_receipt : Response :=
  mkResponse 200 (ReadReceipt "Messages already marked as read recently" 0 true).


(** The sessions in the room of a user: the user's active connections. *)
Definition sessions_of (st : Server.State) (room : string) : list Server.Connection :=
  filter (λ c, room ∈ Server.rooms c) (Server.connections st).

(** How many times [u] is listed. *)
Definition occurrences (u : string) (l : list string) : nat :=
  length (filter (λ v, v = u) l).

(** *** Contact resolution, as functions of the store *)

(** A handler that only reads: it returns [f] of the two collections and
    leaves the world as it is, but for the calls it logs. *)
Definition reads {A} (h : Handler A) (f : list User.t → list Message.t → A) : Prop :=
  ∀ w, ∃ ops,
    h w = (Returned (f (users w) (messages w)),
           mkWorld (users w) (messages w) (readOperationsCache w) (trace w ++ ops)).

(** The users with whom [me] has exchanged a message. *)
Definition partners (users : list User.t) (messages : list Message.t) (me : string) :
    list User.t :=
  let ids := messageUserIds me (Message.sort_desc (filter (Message.involving me) messages)) in
  if decide (0 < size ids)%nat then User.find users (User.IdIn ids) else [].

(** The users the role of [currentUser] makes eligible. *)
Definition eligible (users : list User.t) (currentUser : User.t) : list User.t :=
  if decide (User.role currentUser = "user") then
    ((match User.mentor currentUser with
      | Some mentorId =>
          match User.findById users mentorId with Some m => [m] | None => [] end
      | None => []
      end ++ User.find users (User.RoleIs "admin"))
     ++ User.find users (User.RoleIs "mentor"))
  else if decide (User.role currentUser = "mentor") then
    [] ++ User.find users (User.MentorIs (User._id currentUser))
       ++ User.find users (User.RoleIs "admin") ++ User.find users (User.RoleIs "user")
  else if decide (User.role currentUser = "admin") then
    User.find users (User.IdNe (User._id currentUser))
  else User.find users (User.RoleIs "admin").

(** [resolve(requestingUserId)]: the candidates, before statistics and
    ordering. *)
Definition resolve (users : list User.t) (messages : list Message.t)
    (currentUser : User.t) : list User.t :=
  mergeContacts (partners users messages (User._id currentUser)) (eligible users currentUser).

Definition contactIds (r : Response) : option (list string) :=
  match body r with
  | ContactsData cs => Some (contactId <$> cs)
  | _ => None
  end.

Section chat_contacts_spec.
Context (localeCompare : string → string → Z).
Context (toLocaleTimeString toLocaleDateString : Z → string).
Context (getDay : Z → nat).

Definition stats (messages : list Message.t) (currentUser : User.t) (now : Z)
    (contact : User.t) : Contact :=
  mkContact (User._id contact) (User.fullName contact) (User.profileImage contact)
    (User.role contact)
    (Z.of_nat (length (filter (Message.unread_from_to (User._id contact) (User._id currentUser))
                         messages)))
    (formatLastMessageTime toLocaleTimeString toLocaleDateString getDay now
       (head (Message.sort_desc
                (filter (Message.between (User._id currentUser) (User._id contact)) messages)))).

(** The ids listed by [GET /messages/contacts] for requester [me]. *)
Definition contacts_of (w : World) (me : string) (now : Z) : option (list string) :=
  contactIds (respond (getChatContacts localeCompare toLocaleTimeString toLocaleDateString
                         getDay me now) w).1.


(** The order the specification describes, for [a] listed before [b]:
    unread count descending; at equal counts, both with a label, label
    descending in the collation; never one without a label before one
    with a label; neither with a label, display name ascending. *)
Definition in_order (a b : Contact) : Prop :=
  unreadCount b ≤ unreadCount a ∧
  (unreadCount a = unreadCount b →
     (truthy (lastMessageTime a) = true → truthy (lastMessageTime b) = true →
      localeCompare (lastMessageTime b) (lastMessageTime a) ≤ 0) ∧
     ¬ (truthy (lastMessageTime a) = false ∧ truthy (lastMessageTime b) = true) ∧
     (truthy (lastMessageTime a) = false → truthy (lastMessageTime b) = false →
      localeCompare (contactName a) (contactName b) ≤ 0)).

(** [a] may stand before [b] in the sorted list. *)
Definition precedes (a b : Contact) : Prop := compareContacts localeCompare a b ≤ 0.

End chat_contacts_spec.

(** An instance of the runtime primitives: collation by code units, a
    fixed time and date format, and the day of the week in UTC (the epoch
    fell on a Thursday). *)
Definition codeUnitCompare (s t : string) : Z :=
  match String.compare s t with Lt => -1 | Eq => 0 | Gt => 1 end.

Module Runtime.
(** Tokens that are the id they stand for, but for one that fails. *)
Definition verify (token : string) : option string :=
  if decide (token = "expired") then None else Some token.
Definition clock (t : Z) : string := "10:15 AM".
Definition date (t : Z) : string := "1/5/2026".
Definition weekday (t : Z) : nat := Z.to_nat ((t `div` 86400000 + 4) `mod` 7).
Definition contacts : World → string → Z → option (list string) :=
  contacts_of codeUnitCompare clock date weekday.
Definition contactList (w : World) (me : string) (now : Z) : Response :=
  (respond (getChatContacts codeUnitCompare clock date weekday me now) w).1.
Definition route : HttpRequest → Z → World → Answer * World :=
  route verify codeUnitCompare clock date weekday.
Definition serve : World → list (HttpRequest * Z) → World :=
  serve verify codeUnitCompare clock date weekday.
(** A posts "Hello" to B, B opens the conversation, B marks it read. *)
Definition session : list (HttpRequest * Z) :=
  [(mkRequest POST [] (Some "Bearer A") (Some "B") (Some "Hello"), 1000);
   (mkRequest GET ["A"] (Some "Bearer B") None None, 2000);
   (mkRequest PUT ["A"; "read"] (Some "Bearer B") None None, 9000)].
End Runtime.

(** *** Conversation previews, as functions of the store *)

Definition preview (users : list User.t) (messages : list Message.t)
    (me userId : string) : Conversation :=
  mkConversation
    (select_profile <$> User.findById users userId)
    (populate_profile users
       <$> head (Message.sort_desc (filter (Message.between me userId) messages)))
    (Z.of_nat (length (filter (Message.unread_from_to userId me) messages))).

(** The order of the previews: the one with the newer latest message
    first. *)
Definition newer_first (a b : Conversation) : Prop :=
  default 0 (latestCreatedAt b) ≤ default 0 (latestCreatedAt a).

(** The party of the latest message of a preview that is not [me]. *)
Definition partner_of (me : string) (c : Conversation) : option string :=
  (λ p, if decide (Message.sender (Message.doc p) = me)
        then Message.recipient (Message.doc p) else Message.sender (Message.doc p))
    <$> latestMessage c.

(** The two collections and the throttle cache are as they were. *)
Definition same_store (w w' : World) : Prop :=
  users w' = users w ∧ messages w' = messages w ∧
  readOperationsCache w' = readOperationsCache w.

(** *** What a sequence of requests can do to the store *)

(** A stored message as it may be later: the same, possibly read. *)
Definition aged (m m' : Message.t) : Prop :=
  Message._id m' = Message._id m ∧ Message.sender m' = Message.sender m ∧
  Message.recipient m' = Message.recipient m ∧ Message.content m' = Message.content m ∧
  Message.createdAt m' = Message.createdAt m ∧
  (Message.read m = true → Message.read m' = true).

(** The store [w'] is a later state of [w]: the same users; every
    message still there, in place, at most turned read; possibly more
    messages after them. *)
Definition evolves (w w' : World) : Prop :=
  users w' = users w ∧
  ∃ old new, messages w' = old ++ new ∧ Forall2 aged (messages w) old.

(** Sender and recipient of every message are users. *)
Definition linked (users : list User.t) (msgs : list Message.t) : Prop :=
  ∀ m, m ∈ msgs →
       is_Some (User.findById users (Message.sender m)) ∧
       is_Some (User.findById users (Message.recipient m)).

(** The three things a request does to the message collection. *)
Definition message_step (w : World) (now : Z) (msgs' : list Message.t) : Prop :=
  msgs' = messages w ∨
  (∃ s r, msgs' = Message.mark_read s r (messages w)) ∨
  (∃ s r c, msgs' = messages w ++ [Message.create (messages w) s r c now] ∧
            is_Some (User.findById (users w) s) ∧ is_Some (User.findById (users w) r)).

(** *** The socket layer *)

(** The rooms the connection handler puts a socket in. *)
Definition joined_rooms (s : Server.Socket) : gset string :=
  {[Server.id s]} ∪ {[Server.userId s]}
  ∪ (if truthy (Server.userRole s) then {[ "role:" +:+ Server.userRole s ]} else ∅).

(** Every connected socket is in the rooms the handler put it in. *)
Definition rooms_as_joined (st : Server.State) : Prop :=
  ∀ c, c ∈ Server.connections st → Server.rooms c = joined_rooms (Server.socket c).

(** A string without a space, as a token is. *)
Fixpoint spaceless (s : string) : bool :=
  match s with
  | EmptyString => true
  | String c s' => negb (Ascii.eqb c (Ascii.ascii_of_nat 32)) && spaceless s'
  end.

(** * Properties *)

(** ** Sorting *)

Section stable_sort_facts.
Context {A : Type} (le : A → A → bool) (R : relation A).

Lemma insert_sorted_Permutation x l : insert_sorted le x l ≡ₚ x :: l.
Proof.
  induction l as [|y l IH]; simpl; [done|].
  destruct (le x y); [done|].
  rewrite IH. apply Permutation_swap.
Qed.

Lemma stable_sort_Permutation l : stable_sort le l ≡ₚ l.
Proof.
  induction l as [|x l IH]; simpl; [done|].
  rewrite insert_sorted_Permutation. by f_equiv.
Qed.

Lemma elem_of_stable_sort x l : x ∈ stable_sort le l ↔ x ∈ l.
Proof. by rewrite stable_sort_Permutation. Qed.

Hypothesis le_sound : ∀ x y, le x y = true → R x y.
Hypothesis le_total : ∀ x y, le x y = false → R y x.

Lemma insert_sorted_HdRel a x l :
  R a x → HdRel R a l → HdRel R a (insert_sorted le x l).
Proof.
  intros Hax Hl. destruct l as [|y l]; simpl.
  - by constructor.
  - destruct (le x y); constructor; [done|]. by inversion Hl.
Qed.

Lemma insert_sorted_Sorted x l : Sorted R l → Sorted R (insert_sorted le x l).
Proof.
  induction 1 as [|y l Hl IH Hy]; simpl.
  - repeat constructor.
  - destruct (le x y) eqn:Hxy.
    + constructor; [by constructor|]. constructor. by apply le_sound.
    + constructor; [done|]. apply insert_sorted_HdRel; [by apply le_total|done].
Qed.

Lemma stable_sort_Sorted l : Sorted R (stable_sort le l).
Proof.
  induction l as [|x l IH]; simpl; [constructor|]. by apply insert_sorted_Sorted.
Qed.

Lemma stable_sort_StronglySorted `{!Transitive R} l :
  StronglySorted R (stable_sort le l).
Proof. apply Sorted_StronglySorted; [done|]. apply stable_sort_Sorted. Qed.

End stable_sort_facts.

(** In a strongly sorted list an element at a smaller index is related to
    every element at a larger one. *)
Lemma StronglySorted_lookup {A} (R : relation A) (l : list A) (i j : nat) (x y : A) :
  StronglySorted R l → l !! i = Some x → l !! j = Some y → (i < j)%nat → R x y.
Proof.
  intros Hl. revert i j. induction Hl as [|z l Hl IH Hz]; intros i j Hi Hj Hij.
  - by rewrite lookup_nil in Hi.
  - destruct j as [|j]; [lia|]. simpl in Hj. destruct i as [|i]; simpl in Hi.
    + simplify_eq. rewrite Forall_forall in Hz. apply Hz.
      by eapply list_elem_of_lookup_2.
    + eapply (IH i j); [done..|lia].
Qed.

Global Instance earlier_trans : Transitive earlier.
Proof. unfold earlier. intros x y z. lia. Qed.

Lemma sort_asc_Permutation l : Message.sort_asc l ≡ₚ l.
Proof. apply stable_sort_Permutation. Qed.

Lemma sort_asc_StronglySorted l : StronglySorted earlier (Message.sort_asc l).
Proof.
  apply stable_sort_StronglySorted; [..|apply _]; unfold earlier; intros x y.
  - by intros ?%bool_decide_eq_true.
  - intros ?%bool_decide_eq_false. lia.
Qed.

Lemma sort_desc_Permutation l : Message.sort_desc l ≡ₚ l.
Proof. apply stable_sort_Permutation. Qed.

Lemma sort_desc_StronglySorted l : StronglySorted (flip earlier) (Message.sort_desc l).
Proof.
  apply stable_sort_StronglySorted; unfold flip, earlier.
  - by intros x y ?%bool_decide_eq_true.
  - intros x y ?%bool_decide_eq_false. lia.
  - intros x y z. lia.
Qed.

(** ** The document store *)

Lemma filter_nil_iff {A} (P : A → Prop) `{!∀ x, Decision (P x)} (l : list A) :
  filter P l = [] ↔ ∀ x, x ∈ l → ¬ P x.
Proof.
  split.
  - intros Hnil x Hx HP. by eapply filter_nil_not_elem_of.
  - intros Hall. induction l as [|x l IH]; [done|].
    rewrite filter_cons_False; [|apply Hall; by left].
    apply IH. intros y Hy. apply Hall. by right.
Qed.

Lemma findById_Some users id u :
  User.findById users id = Some u → u ∈ users ∧ User._id u = id.
Proof.
  unfold User.findById. intros Hu%head_Some_elem_of.
  by apply list_elem_of_filter in Hu as [? ?].
Qed.

Lemma findById_None users id :
  User.findById users id = None ↔ ∀ u, u ∈ users → User._id u ≠ id.
Proof.
  unfold User.findById. by rewrite head_None, filter_nil_iff.
Qed.

Lemma findById_is_Some users u :
  u ∈ users → is_Some (User.findById users (User._id u)).
Proof.
  intros Hu. destruct (User.findById users (User._id u)) eqn:E; [by eexists|].
  rewrite findById_None in E. by destruct (E u Hu).
Qed.

Lemma unique_ids_inj users u v :
  unique_ids users → u ∈ users → v ∈ users → User._id u = User._id v → u = v.
Proof.
  unfold unique_ids. induction users as [|x xs IH]; intros Hnd Hu Hv Hid.
  - by apply elem_of_nil in Hu.
  - rewrite fmap_cons in Hnd. apply NoDup_cons in Hnd as [Hx Hnd].
    apply elem_of_cons in Hu as [->|Hu]; apply elem_of_cons in Hv as [->|Hv]; auto.
    + destruct Hx. rewrite Hid. by apply list_elem_of_fmap_2.
    + destruct Hx. rewrite <- Hid. by apply list_elem_of_fmap_2.
Qed.

Lemma findById_unique users u :
  unique_ids users → u ∈ users → User.findById users (User._id u) = Some u.
Proof.
  intros Hnd Hu. destruct (findById_is_Some users u Hu) as [v Hv].
  rewrite Hv. f_equal. apply findById_Some in Hv as [Hv Hid].
  by eapply unique_ids_inj.
Qed.

Lemma mark_read_marked s r msgs : Forall2 (marked s r) msgs (Message.mark_read s r msgs).
Proof.
  unfold Message.mark_read. apply Forall2_fmap_r, Forall_Forall2_diag, Forall_forall.
  intros m _. unfold marked, compose.
  destruct (decide (Message.unread_from_to s r m)) as [[Hft Hr]|Hu]; simpl.
  - repeat split. by rewrite decide_True.
  - repeat split. case_decide as Hft; [|done].
    destruct (Message.read m) eqn:E; [done|]. destruct Hu. by split.
Qed.

Lemma mark_read_all_read s r msgs m :
  m ∈ Message.mark_read s r msgs → Message.from_to s r m → Message.read m = true.
Proof.
  intros Hm Hft. pose proof (mark_read_marked s r msgs) as HF.
  apply list_elem_of_lookup in Hm as [i Hi].
  destruct (Forall2_lookup_r _ _ _ _ _ HF Hi) as (m0 & _ & Hmk).
  destruct Hmk as (_ & Hs & Hr & _ & _ & Hread).
  rewrite Hread. rewrite decide_True; [done|].
  destruct Hft as [<- <-]. by split.
Qed.

Lemma mark_read_no_unread s r msgs :
  filter (Message.unread_from_to s r) (Message.mark_read s r msgs) = [].
Proof.
  apply filter_nil_iff. intros m Hm [Hft Hr].
  by rewrite (mark_read_all_read s r msgs m Hm Hft) in Hr.
Qed.

Lemma mark_read_id s r msgs :
  filter (Message.unread_from_to s r) msgs = [] → Message.mark_read s r msgs = msgs.
Proof.
  intros Hnil. unfold Message.mark_read.
  rewrite <- (list_fmap_id msgs) at 2. apply list_fmap_ext. intros i m Hm.
  destruct (decide (Message.unread_from_to s r m)) as [Hu|]; [|done].
  rewrite filter_nil_iff in Hnil. destruct (Hnil m); [|done].
  by eapply list_elem_of_lookup_2.
Qed.

(** *** Looking up an id of the request *)

Lemma userFindByIdCast_found (w : World) (id : string) (u : User.t) :
  User.findById (users w) id = Some u →
  Db.userFindByIdCast id w = (Returned (Some u), log (UserFindById id) w).
Proof. intros Hu. unfold Db.userFindByIdCast. by rewrite Hu. Qed.

Lemma userFindByIdCast_missing (w : World) (id : string) :
  User.findById (users w) id = None → ObjectId.castable id = true →
  Db.userFindByIdCast id w = (Returned None, log (UserFindById id) w).
Proof. intros Hu Hc. unfold Db.userFindByIdCast. by rewrite Hu, Hc. Qed.

Lemma userFindByIdCast_malformed (w : World) (id : string) :
  User.findById (users w) id = None → ObjectId.castable id = false →
  ∃ msg, Db.userFindByIdCast id w = (Thrown 500 msg, w).
Proof. intros Hu Hc. unfold Db.userFindByIdCast. rewrite Hu, Hc. by eexists. Qed.

(** ** Conversation history: [getConversation] *)

Lemma getConversation_run w me userId u :
  User.findById (users w) userId = Some u →
  respond (getConversation me userId) w =
    (mkResponse 200
       (ConversationData
          (Message.populate (users w)
             <$> Message.sort_asc (filter (Message.between me userId) (messages w)))),
     mkWorld (users w) (Message.mark_read userId me (messages w)) (readOperationsCache w)
       (trace w ++ [UserFindById userId; MessageFind; MessageUpdateMany userId me])).
Proof.
  intros Hu. unfold respond, getConversation, bind.
  rewrite (userFindByIdCast_found w userId u Hu). simpl.
  unfold with_messages, log. simpl. by rewrite <- !(assoc_L (++)).
Qed.



Lemma populate_doc users (l : list Message.t) : Message.doc <$> (Message.populate users <$> l) = l.
Proof. rewrite <- list_fmap_compose. apply list_fmap_id. Qed.


(** C1, as amended.  For a requester [a] and an existing user [b],
    [getConversation] answers 200 with every message between [a] and [b]
    and no other, in ascending order of creation time, each as it was
    stored when the call was made (so a message from [b] that [a] had not
    read yet is returned with [read: false]); as a side effect every
    message from [b] to [a] is read in the store afterwards, and nothing
    else in the store changes. *)
Theorem getConversation_history (w : World) (a b : string) :
  is_Some (User.findById (users w) b) → history_as_implemented w a b.
Proof.
  intros [u Hu]. unfold history_as_implemented.
  rewrite (getConversation_run w a b u Hu). unfold returned_docs. simpl.
  rewrite populate_doc.
  exists (Message.sort_asc (filter (Message.between a b) (messages w))).
  split_and!; try done.
  - intros m Hm Hab. exists m. split; [|done].
    rewrite sort_asc_Permutation. by apply list_elem_of_filter.
  - intros r. rewrite sort_asc_Permutation. by intros [? _]%list_elem_of_filter.
  - apply sort_asc_StronglySorted.
  - apply mark_read_all_read.
  - apply sort_asc_Permutation.
  - apply mark_read_marked.
Qed.

Lemma getConversation_history_witness :
  history_as_implemented Scenario.hello_sent "B" "A".
Proof. apply getConversation_history. vm_compute. by eexists. Defined.

(** C1, as stated, fails: when B fetches the conversation with A, the
    message is read in the store afterwards, but the array of that same
    call holds it with [read: false]. *)
Lemma getConversation_returns_stale_read_flag :
  ¬ history_as_specified Scenario.hello_sent "B" "A".
Proof.
  intros (returned & _ & Hret & _ & _ & _ & Hread).
  vm_compute in Hret. injection Hret as <-.
  destruct (Hread (Message.mk 0 "A" "B" "Hello" true 1000)) as [_ Hin].
  - apply list_elem_of_In. vm_compute. by left.
  - done.
  - apply list_elem_of_In in Hin. destruct Hin as [Hin|[]]. discriminate Hin.
Qed.

(** The next fetch does return the message with [read: true]. *)
Lemma getConversation_second_fetch (w : World) (a b : string) (returned : list Message.t) :
  is_Some (User.findById (users w) b) →
  let w' := (respond (getConversation a b) w).2 in
  returned_docs (respond (getConversation a b) w').1 = Some returned →
  ∀ r, r ∈ returned → Message.from_to b a r → Message.read r = true.
Proof.
  intros [u Hu] w'. unfold w'. rewrite (getConversation_run w a b u Hu). simpl.
  rewrite (getConversation_run _ a b u) by done. unfold returned_docs. simpl.
  rewrite populate_doc. intros [= <-] r Hr Hft.
  rewrite sort_asc_Permutation in Hr. apply list_elem_of_filter in Hr as [_ Hr].
  by eapply mark_read_all_read.
Qed.

(** ** Sending: [sendMessage] *)

Lemma sendMessage_invalid w userId recipientId content now :
  truthy_opt recipientId = false ∨ truthy_opt content = false →
  respond (sendMessage userId recipientId content now) w =
    (mkResponse 400 (Failure "Please provide recipient and message content"), w).
Proof.
  intros H. unfold respond, sendMessage.
  destruct (truthy_opt recipientId), (truthy_opt content); simpl; try done.
  by destruct H.
Qed.

Lemma sendMessage_not_found w userId rid c now :
  truthy rid = true → truthy c = true → User.findById (users w) rid = None →
  ObjectId.castable rid = true →
  respond (sendMessage userId (Some rid) (Some c) now) w =
    (mkResponse 404 (Failure "Recipient not found"), log (UserFindById rid) w).
Proof.
  intros Hr Hc Hu Hcast. unfold respond, sendMessage. simpl. rewrite Hr, Hc. simpl.
  unfold bind. by rewrite (userFindByIdCast_missing w rid Hu Hcast).
Qed.

Lemma sendMessage_malformed w userId rid c now :
  truthy rid = true → truthy c = true → User.findById (users w) rid = None →
  ObjectId.castable rid = false →
  ∃ msg, respond (sendMessage userId (Some rid) (Some c) now) w
         = (mkResponse 500 (Failure msg), w).
Proof.
  intros Hr Hc Hu Hcast. unfold respond, sendMessage. simpl. rewrite Hr, Hc. simpl.
  unfold bind. destruct (userFindByIdCast_malformed w rid Hu Hcast) as [msg ->].
  by exists msg.
Qed.

Lemma sendMessage_created w userId rid c now u :
  truthy rid = true → truthy c = true → User.findById (users w) rid = Some u →
  let m := Message.create (messages w) userId rid c now in
  ∃ populated,
    respond (sendMessage userId (Some rid) (Some c) now) w =
      (mkResponse 201 (MessageData populated),
       mkWorld (users w) (messages w ++ [m]) (readOperationsCache w)
         (trace w ++ [UserFindById rid; MessageCreate (Message._id m);
                      MessageFindById (Message._id m)])).
Proof.
  intros Hr Hc Hu m. unfold respond, sendMessage. simpl. rewrite Hr, Hc. simpl.
  unfold bind. rewrite (userFindByIdCast_found w rid u Hu). simpl. eexists. f_equal.
  unfold log, with_messages. simpl. by rewrite <- !(assoc_L (++)).
Qed.



(** ** Sending, then fetching the conversation *)

Section stable_sort_snoc.
Context {A : Type} (le : A → A → bool).

Lemma insert_sorted_snoc x l z :
  le x z = true → insert_sorted le x (l ++ [z]) = insert_sorted le x l ++ [z].
Proof.
  intros Hxz. induction l as [|y l IH]; simpl.
  - by rewrite Hxz.
  - destruct (le x y); [done|]. by rewrite IH.
Qed.

Lemma stable_sort_snoc l z :
  (∀ x, x ∈ l → le x z = true) → stable_sort le (l ++ [z]) = stable_sort le l ++ [z].
Proof.
  induction l as [|x l IH]; intros Hz; simpl; [done|].
  rewrite IH by (intros y Hy; apply Hz; by right).
  apply insert_sorted_snoc, Hz. by left.
Qed.
End stable_sort_snoc.





(** ** Marking as read: [markMessagesAsRead] *)

Lemma markMessagesAsRead_throttled w me senderId now :
  throttled w me senderId now →
  respond (markMessagesAsRead me senderId now) w = (throttled_receipt, w).
Proof.
  unfold throttled. intros Hlt. unfold respond, markMessagesAsRead.
  by rewrite decide_True.
Qed.

Lemma markMessagesAsRead_processed w me senderId now :
  ¬ throttled w me senderId now →
  let cache := evict_old now (<[cacheKey me senderId := now]> (readOperationsCache w)) in
  respond (markMessagesAsRead me senderId now) w =
    match User.findById (users w) senderId with
    | None =>
        if ObjectId.castable senderId
        then (mkResponse 404 (Failure "Sender not found"),
              mkWorld (users w) (messages w) cache (trace w ++ [UserFindById senderId]))
        else (mkResponse 500
                (Failure ("Cast to ObjectId failed for value " +:+ senderId)),
              mkWorld (users w) (messages w) cache (trace w))
    | Some _ =>
        (mkResponse 200
           (ReadReceipt "Messages marked as read"
              (Message.nModified senderId me (messages w)) false),
         mkWorld (users w) (Message.mark_read senderId me (messages w)) cache
           (trace w ++ [UserFindById senderId; MessageUpdateMany senderId me]))
    end.
Proof.
  intros Hge cache. unfold throttled in Hge. unfold respond, markMessagesAsRead.
  rewrite decide_False by done. unfold bind, set_cache, Db.userFindByIdCast. simpl.
  destruct (User.findById (users w) senderId); simpl.
  - unfold log, with_messages. simpl. by rewrite <- !(assoc_L (++)).
  - by destruct (ObjectId.castable senderId).
Qed.

Lemma evict_old_lookup_now now key cache :
  evict_old now (<[key := now]> cache) !! key = Some now.
Proof.
  unfold evict_old. apply map_lookup_filter_Some. split.
  - apply lookup_insert_eq.
  - simpl. lia.
Qed.

(** A processed request leaves its own instant in the cache. *)
Lemma markMessagesAsRead_records w me senderId now :
  ¬ throttled w me senderId now →
  readOperationsCache (respond (markMessagesAsRead me senderId now) w).2
    !! cacheKey me senderId = Some now.
Proof.
  intros Hp. rewrite (markMessagesAsRead_processed w me senderId now Hp).
  destruct (User.findById (users w) senderId); [|destruct (ObjectId.castable senderId)];
    simpl; apply evict_old_lookup_now.
Qed.

Lemma markMessagesAsRead_then_throttled w me senderId t1 t2 :
  ¬ throttled w me senderId t1 → t2 - t1 < 5000 →
  throttled (respond (markMessagesAsRead me senderId t1) w).2 me senderId t2.
Proof.
  intros Hp Hlt. unfold throttled.
  by rewrite (markMessagesAsRead_records w me senderId t1 Hp).
Qed.

Lemma calls_since_app w0 w ops :
  trace w = trace w0 ++ ops → calls_since w0 w = ops.
Proof. unfold calls_since. intros Heq. rewrite Heq. apply drop_app_length. Qed.

(** With nothing unread from the sender, a processed request modifies no
    document and answers 200 with count 0. *)
Lemma markMessagesAsRead_nothing_unread w me senderId now :
  ¬ throttled w me senderId now →
  is_Some (User.findById (users w) senderId) →
  filter (Message.unread_from_to senderId me) (messages w) = [] →
  (respond (markMessagesAsRead me senderId now) w).1
    = mkResponse 200 (ReadReceipt "Messages marked as read" 0 false) ∧
  messages (respond (markMessagesAsRead me senderId now) w).2 = messages w.
Proof.
  intros Hp [u Hu] Hnone.
  rewrite (markMessagesAsRead_processed w me senderId now Hp), Hu. simpl.
  unfold Message.nModified. rewrite Hnone. split; [done|]. by apply mark_read_id.
Qed.

(** C6.  [markMessagesAsRead] is idempotent.  After a processed request
    at [t1], a second request for the same pair at [t2]:
    - within the throttle window, answers 200 with [cached: true] and
      count 0, leaves the world as it is, and the two requests together
      have made at most one update of the store;
    - after the window, the sender being a user, finds nothing unread,
      answers 200 with count 0 and no error, and changes no message.
    More generally every processed request for an existing sender with
    nothing unread answers 200 with count 0 and changes no message. *)
Theorem markRead_idempotent (w : World) (me senderId : string) (t1 t2 : Z) :
  ¬ throttled w me senderId t1 →
  let w1 := (respond (markMessagesAsRead me senderId t1) w).2 in
  let r2 := (respond (markMessagesAsRead me senderId t2) w1).1 in
  let w2 := (respond (markMessagesAsRead me senderId t2) w1).2 in
  (t2 - t1 < 5000 →
     r2 = throttled_receipt ∧ error_kind r2 = None ∧ w2 = w1 ∧
     (length (filter is_update (calls_since w w2)) ≤ 1)%nat) ∧
  (5000 ≤ t2 - t1 → is_Some (User.findById (users w) senderId) →
     r2 = mkResponse 200 (ReadReceipt "Messages marked as read" 0 false) ∧
     error_kind r2 = None ∧ messages w2 = messages w1) ∧
  (∀ w' t, ¬ throttled w' me senderId t →
     is_Some (User.findById (users w') senderId) →
     filter (Message.unread_from_to senderId me) (messages w') = [] →
     (respond (markMessagesAsRead me senderId t) w').1
       = mkResponse 200 (ReadReceipt "Messages marked as read" 0 false) ∧
     messages (respond (markMessagesAsRead me senderId t) w').2 = messages w').
Proof.
  intros Hp w1 r2 w2. split_and!.
  - intros Hlt.
    pose proof (markMessagesAsRead_then_throttled w me senderId t1 t2 Hp Hlt) as Hth.
    unfold r2, w2. fold w1 in Hth.
    rewrite (markMessagesAsRead_throttled w1 me senderId t2 Hth). simpl.
    split_and!; try done. unfold w1.
    rewrite (markMessagesAsRead_processed w me senderId t1 Hp).
    destruct (User.findById (users w) senderId); [|destruct (ObjectId.castable senderId)];
      simpl.
    + erewrite calls_since_app; [|done]. simpl. lia.
    + erewrite calls_since_app; [|done]. simpl. lia.
    + erewrite calls_since_app; [|by rewrite app_nil_r]. simpl. lia.
  - intros Hge [u Hu].
    assert (¬ throttled w1 me senderId t2) as Hp2.
    { unfold throttled, w1. rewrite (markMessagesAsRead_records w me senderId t1 Hp).
      simpl. lia. }
    assert (users w1 = users w ∧
            messages w1 = Message.mark_read senderId me (messages w)) as [Hus Hms].
    { unfold w1. rewrite (markMessagesAsRead_processed w me senderId t1 Hp), Hu. done. }
    destruct (markMessagesAsRead_nothing_unread w1 me senderId t2 Hp2) as [Hr Hm].
    + rewrite Hus, Hu. by eexists.
    + rewrite Hms. apply mark_read_no_unread.
    + unfold r2, w2. rewrite Hr, Hm. done.
  - intros w' t. apply markMessagesAsRead_nothing_unread.
Qed.

Lemma markRead_idempotent_witness :
  (respond (markMessagesAsRead "B" "A" 101000)
     (respond (markMessagesAsRead "B" "A" 100000) Scenario.hello_sent).2).1
  = throttled_receipt
  ∧ (respond (markMessagesAsRead "B" "A" 106000)
       (respond (markMessagesAsRead "B" "A" 100000) Scenario.hello_sent).2).1
    = mkResponse 200 (ReadReceipt "Messages marked as read" 0 false).
Proof.
  split.
  - refine (proj1 (proj1 (markRead_idempotent Scenario.hello_sent "B" "A" 100000 101000 _) _)).
    + by vm_compute.
    + lia.
  - refine (proj1 (proj1 (proj2 (markRead_idempotent Scenario.hello_sent "B" "A"
                                   100000 106000 _)) _ _)).
    + by vm_compute.
    + lia.
    + vm_compute. by eexists.
Defined.




(** ** The connection registry *)

Lemma elem_of_keys (m : gmap string Server.ConnectionRecord) (u : string) :
  u ∈ Server.keys m ↔ is_Some (m !! u).
Proof.
  unfold Server.keys. rewrite list_elem_of_fmap. split.
  - intros ([k v] & -> & Hkv). apply elem_of_map_to_list in Hkv. by eexists.
  - intros [v Hv]. exists (u, v). split; [done|]. by apply elem_of_map_to_list.
Qed.

Lemma NoDup_keys (m : gmap string Server.ConnectionRecord) : NoDup (Server.keys m).
Proof. apply NoDup_fst_map_to_list. Qed.

Lemma occurrences_NoDup u l : NoDup l → u ∈ l → occurrences u l = 1%nat.
Proof.
  unfold occurrences. induction 1 as [|x l Hx Hl IH]; intros Hu.
  - by apply elem_of_nil in Hu.
  - rewrite filter_cons. destruct (decide (x = u)) as [->|Hne].
    + simpl. f_equal. apply length_zero_iff_nil, filter_nil_iff.
      intros y Hy ->. done.
    + apply IH. apply elem_of_cons in Hu as [->|]; done.
Qed.

Lemma onlineUsers_on_connection s now st :
  Server.onlineUsers (Server.on_connection s now st)
  = <[Server.userId s := Server.mkRecord (Server.userId s) (Server.userRole s)
                           (Server.id s) now]> (Server.onlineUsers st).
Proof. done. Qed.

Lemma onlineUsers_on_disconnect s st :
  Server.onlineUsers (Server.on_disconnect s st)
  = delete (Server.userId s) (Server.onlineUsers st).
Proof. done. Qed.

(** C8.  The registry holds at most one record per user id after every
    sequence of connections and disconnections: the online list has no
    duplicate and lists exactly the registered ids; after two
    registrations of the same user with session ids [sid1] and [sid2] the
    user is listed exactly once and mapped to the later session; a
    disconnection removes the entry. *)
Theorem registry_one_record_per_user (ops : list Server.RegistryOp) (st0 : Server.State) :
  let st := Server.run ops st0 in
  NoDup (Server.listOnline st) ∧
  (∀ u, u ∈ Server.listOnline st ↔ is_Some (Server.onlineUsers st !! u)) ∧
  (∀ u role1 role2 sid1 sid2 t1 t2,
     let st2 := Server.run [Server.register (Server.mkSocket sid1 u role1) t1;
                            Server.register (Server.mkSocket sid2 u role2) t2] st in
     occurrences u (Server.listOnline st2) = 1%nat ∧
     Server.onlineUsers st2 !! u = Some (Server.mkRecord u role2 sid2 t2)) ∧
  (∀ s, let st3 := Server.run [Server.unregister s] st in
        Server.onlineUsers st3 !! Server.userId s = None ∧
        Server.userId s ∉ Server.listOnline st3).
Proof.
  intros st. split_and!.
  - apply NoDup_keys.
  - intros u. apply elem_of_keys.
  - intros u role1 role2 sid1 sid2 t1 t2 st2.
    assert (Server.onlineUsers st2 !! u = Some (Server.mkRecord u role2 sid2 t2)) as Hlk.
    { unfold st2. simpl. apply lookup_insert_eq. }
    split; [|done]. apply occurrences_NoDup; [apply NoDup_keys|].
    apply elem_of_keys. by rewrite Hlk.
  - intros s st3.
    assert (Server.onlineUsers st3 !! Server.userId s = None) as Hlk.
    { unfold st3. simpl. apply lookup_delete_eq. }
    split; [done|]. unfold Server.listOnline. rewrite elem_of_keys, Hlk.
    by intros [? ?].
Qed.

(** ** The delivery router: [send_message] *)

(** C9.  For a message whose recipient carries an id, the handler pushes
    [new_message] to the sessions in the recipient's room and then
    [message_sent], with the message id, the recipient id and the server
    time, to the sender's own socket; nothing else is delivered.  The
    handler ends normally for a message that names its sender, whether or
    not the recipient is connected; with no session in the recipient's
    room the only delivery is the acknowledgment. *)
Theorem send_message_acknowledged (st : Server.State) (s : Server.Socket)
    (message : Server.MessagePayload) (rid : string) (now : Z) :
  Server.valid_recipient (Some message) = Some rid →
  let st' := (Server.on_send_message s (Some message) now st).1 in
  let ack := (Server.id s, Server.message_sent (Server.message_id message) rid now) in
  Server.delivered st'
    = Server.delivered st
      ++ ((λ c, (Server.id (Server.socket c), Server.new_message message))
            <$> sessions_of st rid)
      ++ [ack] ∧
  ack ∈ Server.delivered st' ∧
  (is_Some (Server.sender message) →
     (Server.on_send_message s (Some message) now st).2 = Server.Done) ∧
  (sessions_of st rid = [] → Server.delivered st' = Server.delivered st ++ [ack]).
Proof.
  intros Hrid st' ack.
  assert (Server.delivered st'
          = Server.delivered st
            ++ ((λ c, (Server.id (Server.socket c), Server.new_message message))
                  <$> sessions_of st rid) ++ [ack]) as Hd.
  { unfold st', Server.on_send_message. rewrite Hrid.
    destruct (Server.sender message), (Server.onlineUsers st !! Server.userId s);
      simpl; by rewrite <- (assoc_L (++)). }
  split_and!; [done| | |].
  - rewrite Hd, !elem_of_app. right. right. by left.
  - intros [p Hp]. unfold Server.on_send_message. by rewrite Hrid, Hp.
  - intros Hoff. by rewrite Hd, Hoff.
Qed.

Lemma send_message_acknowledged_witness :
  Server.delivered (Server.on_send_message Scenario.s1 (Some Scenario.hello) 7
                      Scenario.only_A_online).1
  = Server.delivered Scenario.only_A_online
    ++ [("s1", Server.message_sent (Some "m1") "B" 7)]
  ∧ (Server.on_send_message Scenario.s1 (Some Scenario.hello) 7
       Scenario.only_A_online).2 = Server.Done.
Proof.
  split.
  - refine (proj2 (proj2 (proj2 (send_message_acknowledged Scenario.only_A_online
                                   Scenario.s1 Scenario.hello "B" 7 _))) _).
    + reflexivity.
    + by vm_compute.
  - refine (proj1 (proj2 (proj2 (send_message_acknowledged Scenario.only_A_online
                                   Scenario.s1 Scenario.hello "B" 7 _))) _).
    + reflexivity.
    + by eexists.
Defined.

(** A payload without a recipient id is dropped: nothing is delivered,
    not even the acknowledgment. *)
Lemma send_message_malformed (st : Server.State) (s : Server.Socket)
    (message : option Server.MessagePayload) (now : Z) :
  Server.valid_recipient message = None →
  Server.on_send_message s message now st = (st, Server.Done).
Proof.
  intros Hnone. destruct message as [m|]; [|done].
  unfold Server.on_send_message. by rewrite Hnone.
Qed.

(** ** Contact resolution: [getChatContacts] *)


Lemma mergeContacts_cons (all contacts : list User.t) (contact : User.t) :
  mergeContacts all (contact :: contacts)
  = mergeContacts (if decide (Exists (λ c, User._id c = User._id contact) all)
                   then all else all ++ [contact]) contacts.
Proof. done. Qed.

Lemma mergeContacts_keeps (all contacts : list User.t) (c : User.t) :
  c ∈ all → c ∈ mergeContacts all contacts.
Proof.
  revert all. induction contacts as [|x xs IH]; intros all Hc; [done|].
  rewrite mergeContacts_cons. apply IH. case_decide; [done|].
  apply elem_of_app. by left.
Qed.

Lemma mergeContacts_covers (all contacts : list User.t) (c : User.t) :
  c ∈ contacts → User._id c ∈ User._id <$> mergeContacts all contacts.
Proof.
  revert all. induction contacts as [|x xs IH]; intros all Hc.
  - by apply elem_of_nil in Hc.
  - rewrite mergeContacts_cons. apply elem_of_cons in Hc as [->|Hc]; [|by apply IH].
    case_decide as Hex.
    + apply Exists_exists in Hex as (c' & Hc' & <-).
      apply list_elem_of_fmap_2. by apply mergeContacts_keeps.
    + apply list_elem_of_fmap_2, mergeContacts_keeps, elem_of_app. right. by left.
Qed.


Lemma mergeContacts_sound (all contacts : list User.t) (c : User.t) :
  c ∈ mergeContacts all contacts → c ∈ all ∨ c ∈ contacts.
Proof.
  revert all. induction contacts as [|x xs IH]; intros all Hc; [by left|].
  rewrite mergeContacts_cons in Hc. apply IH in Hc as [Hc|Hc]; [|right; by right].
  case_decide; [by left|]. apply elem_of_app in Hc as [Hc|Hc]; [by left|].
  apply list_elem_of_singleton in Hc as ->. right. by left.
Qed.

(** One round of the [forEach] over the messages. *)
Lemma elem_of_noteParties (me p : string) (ids : gset string) (message : Message.t) :
  p ∈ (let ids := if decide (Message.sender message ≠ me)
                  then ids ∪ {[Message.sender message]} else ids in
       if decide (Message.recipient message ≠ me)
       then ids ∪ {[Message.recipient message]} else ids) ↔
  p ∈ ids ∨ (p ≠ me ∧ (Message.sender message = p ∨ Message.recipient message = p)).
Proof.
  simpl. repeat case_decide; rewrite ?elem_of_union, ?elem_of_singleton;
    intuition congruence.
Qed.

(** The other party of every message of [me], and nobody else; never
    [me]. *)
Lemma elem_of_messageUserIds (me p : string) (msgs : list Message.t) :
  p ∈ messageUserIds me msgs ↔
  p ≠ me ∧ ∃ m, m ∈ msgs ∧ (Message.sender m = p ∨ Message.recipient m = p).
Proof.
  unfold messageUserIds.
  cut (∀ acc : gset string,
         p ∈ foldl (λ ids message,
                      let ids := if decide (Message.sender message ≠ me)
                                 then ids ∪ {[Message.sender message]} else ids in
                      if decide (Message.recipient message ≠ me)
                      then ids ∪ {[Message.recipient message]} else ids) acc msgs ↔
         p ∈ acc ∨ (p ≠ me ∧ ∃ m, m ∈ msgs ∧ (Message.sender m = p ∨ Message.recipient m = p))).
  { intros H. rewrite H. split; [|by right].
    intros [Hin|?]; [|done]. by apply not_elem_of_empty in Hin. }
  induction msgs as [|x xs IH]; intros acc.
  - simpl. split; [by left|]. intros [?|(_ & m & Hm & _)]; [done|].
    by apply elem_of_nil in Hm.
  - cbn [foldl]. rewrite IH, elem_of_noteParties. clear IH. split.
    + intros [[Hacc|[Hne Hp]]|(Hne & m & Hm & Hp)].
      * by left.
      * right. split; [done|]. exists x. split; [by left|done].
      * right. split; [done|]. exists m. split; [by right|done].
    + intros [Hacc|(Hne & m & Hm & Hp)]; [by left; left|].
      apply elem_of_cons in Hm as [->|Hm].
      * left. by right.
      * right. split; [done|]. by exists m.
Qed.

Ltac solve_reads :=
  eexists; unfold log, with_messages; simpl; rewrite <- ?(assoc_L (++)); reflexivity.

Lemma reads_roleContacts (currentUser : User.t) :
  reads (roleContacts currentUser) (λ users _, eligible users currentUser).
Proof.
  intros w. unfold roleContacts, eligible. repeat case_decide.
  - destruct (User.mentor currentUser) as [mentorId|];
      unfold bind, Db.userFindById, Db.userFind, ret; simpl; solve_reads.
  - unfold bind, Db.userFind, ret; simpl; solve_reads.
  - unfold Db.userFind. solve_reads.
  - unfold Db.userFind. solve_reads.
Qed.

Section chat_contacts_facts.
Context (localeCompare : string → string → Z).
Context (toLocaleTimeString toLocaleDateString : Z → string).
Context (getDay : Z → nat).

Local Abbreviation contactStats := (contactStats toLocaleTimeString toLocaleDateString getDay).
Local Abbreviation stats := (stats toLocaleTimeString toLocaleDateString getDay).
Local Abbreviation getChatContacts :=
  (getChatContacts localeCompare toLocaleTimeString toLocaleDateString getDay).
Local Abbreviation contacts_of :=
  (contacts_of localeCompare toLocaleTimeString toLocaleDateString getDay).

Lemma reads_contactStats (currentUser : User.t) (now : Z) (contacts : list User.t) :
  reads (for_each (contactStats currentUser now) contacts)
        (λ _ messages, stats messages currentUser now <$> contacts).
Proof.
  induction contacts as [|c cs IH]; intros w.
  - exists []. unfold for_each, ret. rewrite app_nil_r. by destruct w.
  - cbn [for_each]. unfold bind at 1. unfold contactStats at 1.
    unfold bind, Db.messageCountDocuments, Db.messageFindLatest, ret. simpl.
    destruct (IH (log MessageFindOne (log MessageCountDocuments w))) as [ops Hops].
    unfold bind in Hops. rewrite Hops. simpl. eexists.
    rewrite <- !(assoc_L (++)). reflexivity.
Qed.

(** The answer to an existing requester: the resolved candidates with
    their statistics, sorted. *)
Lemma getChatContacts_run (w : World) (me : string) (now : Z) (currentUser : User.t) :
  User.findById (users w) me = Some currentUser →
  (respond (getChatContacts me now) w).1
  = mkResponse 200
      (ContactsData
         (sortContacts localeCompare
            (stats (messages w) currentUser now
               <$> resolve (users w) (messages w) currentUser))).
Proof.
  intros Hcu. unfold respond, getChatContacts.
  unfold bind at 1. unfold Db.userFindById at 1. rewrite Hcu.
  unfold bind at 1. unfold Db.messageFindDesc at 1. cbn [users messages log].
  set (ids := messageUserIds (User._id currentUser)
                (Message.sort_desc (filter (Message.involving (User._id currentUser))
                                      (messages w)))).
  set (w2 := log MessageFind (log (UserFindById me) w)).
  assert (∃ w3, (if decide (0 < size ids)%nat
                 then Db.userFind (User.IdIn ids) else ret []) w2
                = (Returned (partners (users w) (messages w) (User._id currentUser)), w3)
                ∧ users w3 = users w ∧ messages w3 = messages w) as (w3 & Hw3 & Hu3 & Hm3).
  { unfold partners. fold ids. case_decide; eexists; (split; [reflexivity|done]). }
  unfold bind at 1. rewrite Hw3.
  unfold bind at 1. unfold try_catch.
  destruct (reads_roleContacts currentUser w3) as [ops4 ->].
  set (w4 := mkWorld _ _ _ _).
  unfold bind at 1.
  destruct (reads_contactStats currentUser now
              (mergeContacts (partners (users w) (messages w) (User._id currentUser))
                 (eligible (users w3) currentUser)) w4) as [ops5 ->].
  simpl. by rewrite Hu3, Hm3.
Qed.

Lemma getChatContacts_no_requester (w : World) (me : string) (now : Z) :
  User.findById (users w) me = None →
  status (respond (getChatContacts me now) w).1 = 500.
Proof.
  intros Hcu. unfold respond, getChatContacts, bind, Db.userFindById. by rewrite Hcu.
Qed.

Lemma contactId_stats (ms : list Message.t) (cu : User.t) (now : Z) (l : list User.t) :
  contactId <$> (stats ms cu now <$> l) = User._id <$> l.
Proof. rewrite <- list_fmap_compose. by apply list_fmap_ext. Qed.

(** The ids listed are those of the resolved candidates, reordered. *)
Lemma contacts_of_resolve (w : World) (me : string) (now : Z) (currentUser : User.t) :
  User.findById (users w) me = Some currentUser →
  ∃ ids, contacts_of w me now = Some ids ∧
         ids ≡ₚ User._id <$> resolve (users w) (messages w) currentUser.
Proof.
  intros Hcu. unfold contacts_of.
  rewrite (getChatContacts_run w me now currentUser Hcu). unfold contactIds. simpl.
  eexists. split; [done|]. unfold sortContacts.
  by rewrite stable_sort_Permutation, contactId_stats.
Qed.



(** Who is a partner: any user other than [me] who is a party of a
    message of [me]. *)
Lemma elem_of_partners (us : list User.t) (ms : list Message.t) (me : string) (p : User.t) :
  p ∈ partners us ms me ↔
  p ∈ us ∧ User._id p ≠ me ∧ ∃ m, m ∈ ms ∧ Message.between me (User._id p) m.
Proof.
  unfold partners.
  set (ids := messageUserIds me (Message.sort_desc (filter (Message.involving me) ms))).
  assert (∀ i, i ∈ ids ↔ i ≠ me ∧ ∃ m, m ∈ ms ∧ Message.between me i m) as Hids.
  { intros i. unfold ids. rewrite elem_of_messageUserIds. split.
    - intros (Hne & m & Hm & Hp). split; [done|]. exists m.
      rewrite sort_desc_Permutation in Hm. apply list_elem_of_filter in Hm as [Hinv Hm].
      split; [done|]. unfold Message.between, Message.from_to.
      destruct Hinv as [Hs|Hr], Hp as [Hp|Hp]; try (by left); try (by right); congruence.
    - intros (Hne & m & Hm & Hb). split; [done|]. exists m. split.
      + rewrite sort_desc_Permutation. apply list_elem_of_filter. split; [|done].
        destruct Hb as [[? ?]|[? ?]]; [by left|by right].
      + destruct Hb as [[? ?]|[? ?]]; [by right|by left]. }
  split.
  - case_decide; [|by intros ?%elem_of_nil].
    intros [Hin Hp]%list_elem_of_filter. simpl in Hin. apply Hids in Hin as [? ?]. done.
  - intros (Hp & Hne & Hm).
    assert (User._id p ∈ ids) as Hin by (by apply Hids).
    rewrite decide_True.
    + apply list_elem_of_filter. by split.
    + destruct (decide (size ids = 0%nat)) as [Hz|]; [|lia].
      apply size_empty_iff in Hz. rewrite Hz in Hin. by apply not_elem_of_empty in Hin.
Qed.


Lemma eligible_user (us : list User.t) (cu : User.t) :
  User.role cu = "user" →
  eligible us cu
  = (match User.mentor cu with
     | Some mentorId => match User.findById us mentorId with Some m => [m] | None => [] end
     | None => []
     end ++ User.find us (User.RoleIs "admin")) ++ User.find us (User.RoleIs "mentor").
Proof. intros Hr. unfold eligible. by rewrite decide_True. Qed.

Lemma eligible_mentor (us : list User.t) (cu : User.t) :
  User.role cu = "mentor" →
  eligible us cu
  = User.find us (User.MentorIs (User._id cu))
    ++ User.find us (User.RoleIs "admin") ++ User.find us (User.RoleIs "user").
Proof.
  intros Hr. unfold eligible. rewrite decide_False by (by rewrite Hr).
  by rewrite decide_True.
Qed.

Lemma eligible_listed (w : World) (me : string) (now : Z) (currentUser c : User.t) :
  User.findById (users w) me = Some currentUser →
  c ∈ eligible (users w) currentUser →
  ∃ ids, contacts_of w me now = Some ids ∧ User._id c ∈ ids.
Proof.
  intros Hcu Hc.
  destruct (contacts_of_resolve w me now currentUser Hcu) as (ids & Hids & Hperm).
  exists ids. split; [done|]. rewrite Hperm. by apply mergeContacts_covers.
Qed.

(** C4.  A requester of role [user] whose assigned mentor exists is
    given that mentor, whether or not they have exchanged messages, and
    every user of role [admin] and every user of role [mentor]; and for a
    mentor [M] and a mentee [U1] of role [user] with [U1.mentor = M], the
    list of [M] contains [U1] and the list of [U1] contains [M]. *)
Theorem role_contacts_listed (w : World) (now : Z) :
  (∀ me requester mentorId M,
     User.findById (users w) me = Some requester →
     User.role requester = "user" →
     User.mentor requester = Some mentorId →
     User.findById (users w) mentorId = Some M →
     ∃ ids, contacts_of w me now = Some ids ∧ mentorId ∈ ids ∧
            ∀ a, a ∈ users w → User.role a = "admin" ∨ User.role a = "mentor" →
                 User._id a ∈ ids) ∧
  (∀ m M u1 U1,
     User.findById (users w) m = Some M → User.role M = "mentor" →
     User.findById (users w) u1 = Some U1 → User.role U1 = "user" →
     User.mentor U1 = Some m →
     (∃ ids, contacts_of w m now = Some ids ∧ u1 ∈ ids) ∧
     (∃ ids, contacts_of w u1 now = Some ids ∧ m ∈ ids)).
Proof.
  split.
  - intros me requester mentorId M Hcu Hrole Hmentor HM.
    destruct (contacts_of_resolve w me now requester Hcu) as (ids & Hids & Hperm).
    exists ids. split; [done|]. unfold resolve in Hperm.
    rewrite (eligible_user _ _ Hrole), Hmentor, HM in Hperm. split.
    + rewrite Hperm. apply findById_Some in HM as [_ <-].
      apply mergeContacts_covers. rewrite !elem_of_app. left. left. by left.
    + intros a Ha Hr. rewrite Hperm. apply mergeContacts_covers.
      rewrite !elem_of_app. unfold User.find.
      destruct Hr as [Hr|Hr]; [left; right|right]; by apply list_elem_of_filter.
  - intros m M u1 U1 HM HroleM HU HroleU Hmentor.
    pose proof (findById_Some _ _ _ HM) as [HMin HMid].
    pose proof (findById_Some _ _ _ HU) as [HUin HUid]. split.
    + rewrite <- HUid. apply (eligible_listed w m now M U1 HM).
      rewrite (eligible_mentor _ _ HroleM), elem_of_app. left.
      apply list_elem_of_filter. split; [|done]. simpl. by rewrite HMid.
    + rewrite <- HMid. apply (eligible_listed w u1 now U1 M HU).
      rewrite (eligible_user _ _ HroleU), Hmentor, HM, !elem_of_app. left. left. by left.
Qed.

End chat_contacts_facts.



Lemma role_contacts_listed_witness :
  ∃ ids, Runtime.contacts Scenario.empty "A" 2000 = Some ids ∧ "M" ∈ ids.
Proof.
  destruct (proj1 (role_contacts_listed codeUnitCompare Runtime.clock Runtime.date
                     Runtime.weekday Scenario.empty 2000)
              "A" Scenario.A "M" Scenario.M) as (ids & Hids & Hin & _);
    try reflexivity.
  by exists ids.
Defined.

(** ** The order of the contact list *)

Lemma string_compare_trans (s t u : string) :
  String.compare s t ≠ Gt → String.compare t u ≠ Gt → String.compare s u ≠ Gt.
Proof.
  revert t u. induction s as [|a s IH]; intros [|b t] [|c u]; simpl; try done.
  intros Hst Htu.
  destruct (Ascii.compare a b) eqn:Eab; [| |done].
  - apply Ascii.compare_eq_iff in Eab as ->.
    destruct (Ascii.compare b c); [by eapply IH|done|done].
  - destruct (Ascii.compare b c) eqn:Ebc; [| |done].
    + apply Ascii.compare_eq_iff in Ebc as <-. by rewrite Eab.
    + assert (Ascii.compare a c = Lt) as ->; [|done].
      unfold Ascii.compare in *. rewrite N.compare_lt_iff in *. lia.
Qed.

Lemma codeUnitCompare_le (s t : string) :
  codeUnitCompare s t ≤ 0 ↔ String.compare s t ≠ Gt.
Proof. unfold codeUnitCompare. destruct (String.compare s t); split; (done || lia). Qed.

Lemma codeUnitCompare_total (s t : string) :
  codeUnitCompare s t ≤ 0 ∨ codeUnitCompare t s ≤ 0.
Proof.
  rewrite !codeUnitCompare_le, (String.compare_antisym t s).
  destruct (String.compare s t); simpl; [left|left|right]; done.
Qed.

Lemma codeUnitCompare_trans (s t u : string) :
  codeUnitCompare s t ≤ 0 → codeUnitCompare t u ≤ 0 → codeUnitCompare s u ≤ 0.
Proof. rewrite !codeUnitCompare_le. apply string_compare_trans. Qed.

Section contact_order.
Context (localeCompare : string → string → Z).
Context (toLocaleTimeString toLocaleDateString : Z → string).
Context (getDay : Z → nat).

(** The collation is a total preorder. *)
Hypothesis localeCompare_total :
  ∀ s t, localeCompare s t ≤ 0 ∨ localeCompare t s ≤ 0.
Hypothesis localeCompare_trans :
  ∀ s t u, localeCompare s t ≤ 0 → localeCompare t u ≤ 0 → localeCompare s u ≤ 0.

Local Abbreviation sortContacts := (sortContacts localeCompare).
Local Abbreviation getChatContacts :=
  (getChatContacts localeCompare toLocaleTimeString toLocaleDateString getDay).

Lemma precedes_total (a b : Contact) :
  ¬ precedes localeCompare a b → precedes localeCompare b a.
Proof.
  unfold precedes, compareContacts.
  destruct (localeCompare_total (lastMessageTime a) (lastMessageTime b)),
           (localeCompare_total (contactName a) (contactName b));
    repeat case_decide;
    destruct (truthy (lastMessageTime a)), (truthy (lastMessageTime b)); simpl; lia.
Qed.

Global Instance precedes_trans : Transitive (precedes localeCompare).
Proof.
  intros a b c. unfold precedes, compareContacts.
  pose proof (localeCompare_trans (lastMessageTime c) (lastMessageTime b) (lastMessageTime a)).
  pose proof (localeCompare_trans (contactName a) (contactName b) (contactName c)).
  repeat case_decide;
    destruct (truthy (lastMessageTime a)), (truthy (lastMessageTime b)),
             (truthy (lastMessageTime c)); simpl; try lia; auto.
Qed.

Lemma sortContacts_sorted (l : list Contact) :
  StronglySorted (precedes localeCompare) (sortContacts l).
Proof.
  apply stable_sort_StronglySorted; [..|apply _].
  - by intros a b ?%bool_decide_eq_true.
  - intros a b ?%bool_decide_eq_false. by apply precedes_total.
Qed.

Lemma precedes_in_order (a b : Contact) :
  precedes localeCompare a b → in_order localeCompare a b.
Proof.
  unfold precedes, in_order, compareContacts.
  repeat case_decide;
    destruct (truthy (lastMessageTime a)), (truthy (lastMessageTime b)); simpl;
    intros Hle; (split; [lia|]); intros Heq; split_and!; try done; try lia;
    by intros [? ?].
Qed.

(** C5.  In the list answered by [GET /messages/contacts], a contact
    listed before another has at least as many unread messages; at equal
    counts, if both have a label, its label is not smaller in the
    collation; one without a label is never before one with a label; and
    if neither has a label its name is not greater.  In particular a
    contact with 5 unread messages is listed before one with 3. *)
Theorem contact_list_order (w : World) (me : string) (now : Z) (cs : list Contact)
    (i j : nat) (a b : Contact) :
  (respond (getChatContacts me now) w).1 = mkResponse 200 (ContactsData cs) →
  cs !! i = Some a → cs !! j = Some b →
  ((i < j)%nat → in_order localeCompare a b) ∧
  (unreadCount a = 5 → unreadCount b = 3 → (i < j)%nat).
Proof.
  intros Hresp Ha Hb.
  assert (StronglySorted (precedes localeCompare) cs) as Hsorted.
  { destruct (User.findById (users w) me) as [cu|] eqn:Hcu.
    - rewrite (getChatContacts_run _ _ _ _ w me now cu Hcu) in Hresp.
      injection Hresp as <-. apply sortContacts_sorted.
    - pose proof (getChatContacts_no_requester localeCompare toLocaleTimeString
                    toLocaleDateString getDay w me now Hcu) as H500.
      by rewrite Hresp in H500. }
  split.
  - intros Hij. apply precedes_in_order.
    by apply (StronglySorted_lookup _ cs i j a b).
  - intros H5 H3. destruct (decide (i < j)%nat) as [|Hge]; [done|].
    destruct (decide (i = j)) as [->|Hne].
    + rewrite Ha in Hb. injection Hb as <-. lia.
    + assert (j < i)%nat as Hji by lia.
      pose proof (StronglySorted_lookup _ cs j i b a Hsorted Hb Ha Hji) as Hp.
      apply precedes_in_order in Hp as [Hle _]. lia.
Qed.

End contact_order.

Lemma contact_list_order_witness :
  in_order codeUnitCompare
    (mkContact "A" "Aisha" "a.png" "user" 1 "10:15 AM")
    (mkContact "M" "Maryam" "m.png" "mentor" 0 "").
Proof.
  refine (proj1 (contact_list_order codeUnitCompare Runtime.clock Runtime.date
                   Runtime.weekday codeUnitCompare_total codeUnitCompare_trans
                   Scenario.hello_sent "B" 2000 _ 0 1 _ _ _ _ _) _).
  - by vm_compute.
  - reflexivity.
  - reflexivity.
  - lia.
Defined.

(** ** Conversation previews: [getConversations] *)

Lemma reads_for_each {A B} (f : A → Handler B)
    (g : A → list User.t → list Message.t → B) (l : list A) :
  (∀ x, reads (f x) (g x)) →
  reads (for_each f l) (λ users messages, (λ x, g x users messages) <$> l).
Proof.
  intros Hf. induction l as [|x l IH]; intros w.
  - exists []. unfold for_each, ret. rewrite app_nil_r. by destruct w.
  - cbn [for_each]. unfold bind at 1. destruct (Hf x w) as [ops1 ->].
    unfold bind at 1. set (w1 := mkWorld _ _ _ _).
    destruct (IH w1) as [ops2 ->]. simpl. exists (ops1 ++ ops2).
    by rewrite <- (assoc_L (++)).
Qed.

Lemma reads_conversationPreview (me userId : string) :
  reads (conversationPreview me userId)
        (λ users messages, preview users messages me userId).
Proof.
  intros w. unfold conversationPreview, bind, messageFindLatestPopulated,
    Db.messageCountDocuments, userFindByIdSelected, ret. simpl. solve_reads.
Qed.

Lemma elem_of_set_add (x y : string) (s : list string) :
  y ∈ set_add x s ↔ y ∈ s ∨ y = x.
Proof.
  unfold set_add. case_decide as Hx.
  - split; [by left|]. by intros [?| ->].
  - rewrite elem_of_app, list_elem_of_singleton. done.
Qed.

Lemma NoDup_set_add (x : string) (s : list string) : NoDup s → NoDup (set_add x s).
Proof.
  intros Hs. unfold set_add. case_decide as Hx; [done|].
  apply NoDup_app. split_and!; [done| |apply NoDup_singleton].
  by intros y Hy ->%list_elem_of_singleton.
Qed.

Lemma conversationUserIds_spec (me : string) (msgs : list Message.t) :
  NoDup (conversationUserIds me msgs) ∧
  ∀ p, p ∈ conversationUserIds me msgs ↔
       p ≠ me ∧ ∃ m, m ∈ msgs ∧ (Message.sender m = p ∨ Message.recipient m = p).
Proof.
  unfold conversationUserIds.
  cut (∀ acc : list string, NoDup acc →
         let ids := foldl (λ userIds message,
                      let userIds := if decide (Message.sender message ≠ me)
                                     then set_add (Message.sender message) userIds
                                     else userIds in
                      if decide (Message.recipient message ≠ me)
                      then set_add (Message.recipient message) userIds else userIds)
                      acc msgs in
         NoDup ids ∧
         ∀ p, p ∈ ids ↔
              p ∈ acc ∨ (p ≠ me ∧ ∃ m, m ∈ msgs ∧
                                   (Message.sender m = p ∨ Message.recipient m = p))).
  { intros H. destruct (H [] (NoDup_nil_2)) as [Hnd Hin]. split; [done|].
    intros p. rewrite Hin. split; [|by right].
    intros [Hp|?]; [|done]. by apply elem_of_nil in Hp. }
  induction msgs as [|x xs IH]; intros acc Hacc.
  - simpl. split; [done|]. intros p. split; [by left|].
    intros [?|(_ & m & Hm & _)]; [done|]. by apply elem_of_nil in Hm.
  - cbn [foldl]. cbv zeta.
    set (acc' := if decide (Message.recipient x ≠ me) then _ else _).
    assert (NoDup acc') as Hacc'.
    { unfold acc'. repeat case_decide; repeat apply NoDup_set_add; done. }
    assert (∀ p, p ∈ acc' ↔
                 p ∈ acc ∨ (p ≠ me ∧ (Message.sender x = p ∨ Message.recipient x = p)))
      as Hin'.
    { intros p. unfold acc'. repeat case_decide; rewrite ?elem_of_set_add;
        intuition congruence. }
    destruct (IH acc' Hacc') as [Hnd Hin]. split; [done|].
    intros p. rewrite Hin, Hin'. clear. split.
    + intros [[?|[Hne Hp]]|(Hne & m & Hm & Hp)].
      * by left.
      * right. split; [done|]. exists x. split; [by left|done].
      * right. split; [done|]. exists m. split; [by right|done].
    + intros [?|(Hne & m & Hm & Hp)]; [by left; left|].
      apply elem_of_cons in Hm as [->|Hm].
      * left. by right.
      * right. split; [done|]. by exists m.
Qed.

(** The ids [getConversations] goes through, in terms of the store. *)
Lemma elem_of_conversation_ids (me p : string) (msgs : list Message.t) :
  p ∈ conversationUserIds me (Message.sort_desc (filter (Message.involving me) msgs)) ↔
  p ≠ me ∧ ∃ m, m ∈ msgs ∧ Message.between me p m.
Proof.
  rewrite (proj2 (conversationUserIds_spec me _)). split.
  - intros (Hne & m & Hm & Hp). split; [done|]. exists m.
    rewrite sort_desc_Permutation in Hm. apply list_elem_of_filter in Hm as [Hinv Hm].
    split; [done|]. unfold Message.between, Message.from_to.
    destruct Hinv as [Hs|Hr], Hp as [Hp|Hp]; try (by left); try (by right); congruence.
  - intros (Hne & m & Hm & Hb). split; [done|]. exists m. split.
    + rewrite sort_desc_Permutation. apply list_elem_of_filter. split; [|done].
      destruct Hb as [[? ?]|[? ?]]; [by left|by right].
    + destruct Hb as [[? ?]|[? ?]]; [by right|by left].
Qed.

Lemma head_sort_desc (l : list Message.t) :
  l ≠ [] →
  ∃ m, head (Message.sort_desc l) = Some m ∧ m ∈ l ∧
       ∀ m', m' ∈ l → Message.createdAt m' ≤ Message.createdAt m.
Proof.
  intros Hl. pose proof (sort_desc_Permutation l) as Hperm.
  pose proof (sort_desc_StronglySorted l) as Hsorted.
  destruct (Message.sort_desc l) as [|m rest].
  - apply Permutation_nil_l in Hperm. by destruct Hl.
  - exists m. split; [done|]. split; [rewrite <- Hperm; by left|].
    intros m' Hm'. rewrite <- Hperm in Hm'.
    apply StronglySorted_inv in Hsorted as [_ Hall].
    apply elem_of_cons in Hm' as [->|Hm']; [done|].
    rewrite Forall_forall in Hall. by apply Hall.
Qed.

(** The preview of a partner has a latest message: one between the two,
    and none between them is newer. *)
Lemma preview_latest (us : list User.t) (ms : list Message.t) (me p : string) :
  (∃ m, m ∈ ms ∧ Message.between me p m) →
  ∃ m, latestMessage (preview us ms me p) = Some (populate_profile us m) ∧
       m ∈ ms ∧ Message.between me p m ∧
       ∀ m', m' ∈ ms → Message.between me p m' →
             Message.createdAt m' ≤ Message.createdAt m.
Proof.
  intros (m0 & Hm0 & Hb0).
  destruct (head_sort_desc (filter (Message.between me p) ms)) as (m & Hhead & Hm & Hmax).
  { intros Hnil. rewrite filter_nil_iff in Hnil. by destruct (Hnil m0). }
  apply list_elem_of_filter in Hm as [Hb Hm].
  exists m. unfold preview. simpl. rewrite Hhead. split_and!; try done.
  intros m' Hm' Hb'. apply Hmax. by apply list_elem_of_filter.
Qed.

Lemma partner_of_preview (us : list User.t) (ms : list Message.t) (me p : string) :
  p ≠ me → (∃ m, m ∈ ms ∧ Message.between me p m) →
  partner_of me (preview us ms me p) = Some p.
Proof.
  intros Hne Hex. destruct (preview_latest us ms me p Hex) as (m & Hl & _ & Hb & _).
  unfold partner_of. rewrite Hl. simpl. f_equal.
  destruct Hb as [[Hs Hr]|[Hs Hr]]; case_decide; congruence.
Qed.

(** What [getConversations] returns, and that it only reads. *)
Lemma getConversations_run (w : World) (me : string) :
  let ids := conversationUserIds me
               (Message.sort_desc (filter (Message.involving me) (messages w))) in
  ∃ ops,
    getConversations me w
    = (Returned
         (mkListing 200
            (stable_sort
               (λ a b, bool_decide (default 0 (latestCreatedAt b)
                                    - default 0 (latestCreatedAt a) ≤ 0))
               (preview (users w) (messages w) me <$> ids))),
       mkWorld (users w) (messages w) (readOperationsCache w) (trace w ++ ops)).
Proof.
  intros ids. unfold getConversations.
  unfold bind at 1. unfold Db.messageFindDesc at 1. cbn [users messages log].
  fold ids. set (w1 := log MessageFind w).
  destruct (reads_for_each (conversationPreview me)
              (λ userId us ms, preview us ms me userId) ids
              (reads_conversationPreview me) w1) as [ops Hops].
  unfold bind at 1. rewrite Hops. cbn [users messages log w1].
  unfold bind at 1. unfold sortConversations. rewrite decide_True.
  - unfold ret. simpl. eexists. rewrite <- (assoc_L (++)). reflexivity.
  - right. apply Forall_fmap, Forall_forall. intros p Hp. simpl.
    apply elem_of_conversation_ids in Hp as [Hne Hex].
    destruct (preview_latest (users w) (messages w) me p Hex) as (m & Hl & _).
    unfold preview in Hl. simpl in Hl. rewrite Hl. by eexists.
Qed.

Global Instance newer_first_trans : Transitive newer_first.
Proof. unfold newer_first. intros a b c. lia. Qed.

Lemma getConversations_previews (w : World) (me : string) :
  ∃ cs w',
    getConversations me w = (Returned (mkListing 200 cs), w') ∧
    same_store w w' ∧
    cs ≡ₚ preview (users w) (messages w) me
            <$> conversationUserIds me
                  (Message.sort_desc (filter (Message.involving me) (messages w))) ∧
    StronglySorted newer_first cs.
Proof.
  destruct (getConversations_run w me) as [ops Hrun].
  eexists _, _. split; [exact Hrun|]. split_and!; try done.
  - apply stable_sort_Permutation.
  - apply stable_sort_StronglySorted; [..|apply _]; unfold newer_first.
    + intros a b ?%bool_decide_eq_true. lia.
    + intros a b ?%bool_decide_eq_false. lia.
Qed.

Lemma elem_of_previews (w : World) (me : string) (c : Conversation) :
  c ∈ preview (users w) (messages w) me
        <$> conversationUserIds me
              (Message.sort_desc (filter (Message.involving me) (messages w))) →
  ∃ p, c = preview (users w) (messages w) me p ∧ p ≠ me ∧
       (∃ m, m ∈ messages w ∧ Message.between me p m) ∧
       partner_of me c = Some p.
Proof.
  intros (p & -> & Hp)%list_elem_of_fmap.
  apply elem_of_conversation_ids in Hp as [Hne Hex].
  exists p. split_and!; try done. by apply partner_of_preview.
Qed.

(** X1.  [getConversations] answers 200 for every requester and every
    store, the comparison of the final sort never meeting a preview
    without a latest message; the previews are those of the other parties
    of the requester's messages, one each, and never of the requester. *)
Theorem getConversations_partners (w : World) (me : string) :
  ∃ cs w',
    getConversations me w = (Returned (mkListing 200 cs), w') ∧
    NoDup (partner_of me <$> cs) ∧
    ∀ o, o ∈ partner_of me <$> cs ↔
         ∃ p, o = Some p ∧ p ≠ me ∧ ∃ m, m ∈ messages w ∧ Message.between me p m.
Proof.
  destruct (getConversations_previews w me) as (cs & w' & Hrun & _ & Hperm & _).
  exists cs, w'. split; [done|].
  set (ids := conversationUserIds me _) in Hperm.
  assert (partner_of me <$> (preview (users w) (messages w) me <$> ids) = Some <$> ids)
    as Heq.
  { rewrite <- list_fmap_compose. apply list_fmap_ext.
    intros i p Hp%list_elem_of_lookup_2. simpl.
    apply elem_of_conversation_ids in Hp as [Hne Hex]. by apply partner_of_preview. }
  assert (partner_of me <$> cs ≡ₚ Some <$> ids) as Hids by (by rewrite Hperm, Heq).
  split.
  - rewrite Hids. apply (NoDup_fmap_2 _). apply conversationUserIds_spec.
  - intros o. rewrite Hids, list_elem_of_fmap. split.
    + intros (p & -> & Hp). exists p. split; [done|]. by apply elem_of_conversation_ids.
    + intros (p & -> & Hp). exists p. split; [done|]. by apply elem_of_conversation_ids.
Qed.

(** X2.  The previews are in the order of their latest messages, newest
    first, and each has a latest message. *)
Theorem getConversations_newest_first (w : World) (me : string) :
  ∃ cs w',
    getConversations me w = (Returned (mkListing 200 cs), w') ∧
    StronglySorted newer_first cs ∧
    Forall (λ c, is_Some (latestMessage c)) cs.
Proof.
  destruct (getConversations_previews w me) as (cs & w' & Hrun & _ & Hperm & Hsorted).
  exists cs, w'. split_and!; try done.
  apply Forall_forall. intros c Hc. rewrite Hperm in Hc.
  apply elem_of_previews in Hc as (p & -> & _ & Hex & _).
  destruct (preview_latest (users w) (messages w) me p Hex) as (m & -> & _). by eexists.
Qed.

(** X3.  The preview of partner [p] carries the newest message between
    the requester and [p], the number of unread messages from [p] to the
    requester, and the profile of [p], which is [null] when no user has
    that id any more. *)
Theorem getConversations_preview (w : World) (me : string) :
  ∃ cs w',
    getConversations me w = (Returned (mkListing 200 cs), w') ∧
    ∀ c p, c ∈ cs → partner_of me c = Some p →
      previewUser c = select_profile <$> User.findById (users w) p ∧
      previewUnread c
        = Z.of_nat (length (filter (Message.unread_from_to p me) (messages w))) ∧
      ∃ m, latestMessage c = Some (populate_profile (users w) m) ∧
           m ∈ messages w ∧ Message.between me p m ∧
           ∀ m', m' ∈ messages w → Message.between me p m' →
                 Message.createdAt m' ≤ Message.createdAt m.
Proof.
  destruct (getConversations_previews w me) as (cs & w' & Hrun & _ & Hperm & _).
  exists cs, w'. split; [done|]. intros c p Hc Hp. rewrite Hperm in Hc.
  apply elem_of_previews in Hc as (q & -> & _ & Hex & Hq).
  rewrite Hq in Hp. injection Hp as ->. split_and!; try done.
  by apply preview_latest.
Qed.

(** ** The routes *)

Lemma getConversation_world (w : World) (me userId : string) :
  let w' := (respond (getConversation me userId) w).2 in
  users w' = users w ∧ readOperationsCache w' = readOperationsCache w ∧
  (messages w' = messages w ∨ messages w' = Message.mark_read userId me (messages w)).
Proof.
  destruct (User.findById (users w) userId) as [u|] eqn:Hu.
  - rewrite (getConversation_run w me userId u Hu). simpl. auto.
  - unfold respond, getConversation, bind, Db.userFindByIdCast. rewrite Hu.
    destruct (ObjectId.castable userId); simpl; auto.
Qed.

Lemma sendMessage_world (w : World) (me : string) (recipientId content : option string)
    (now : Z) :
  let w' := (respond (sendMessage me recipientId content now) w).2 in
  users w' = users w ∧ readOperationsCache w' = readOperationsCache w ∧
  (messages w' = messages w ∨
   ∃ r c, messages w' = messages w ++ [Message.create (messages w) me r c now] ∧
          recipientId = Some r ∧ content = Some c ∧ truthy r = true ∧ truthy c = true ∧
          is_Some (User.findById (users w) r)).
Proof.
  destruct (decide (truthy_opt recipientId = false ∨ truthy_opt content = false))
    as [Hbad|Hgood].
  - rewrite (sendMessage_invalid w me recipientId content now Hbad). simpl. auto.
  - assert (truthy_opt recipientId = true ∧ truthy_opt content = true) as [Hr Hc].
    { destruct (truthy_opt recipientId), (truthy_opt content); naive_solver. }
    destruct recipientId as [rid|]; [|done]. destruct content as [c|]; [|done].
    simpl in Hr, Hc. destruct (User.findById (users w) rid) as [u|] eqn:Hu.
    + destruct (sendMessage_created w me rid c now u Hr Hc Hu) as [p ->]. simpl.
      split_and!; [done..|]. right. exists rid, c. split_and!; [done..|]. by eexists.
    + destruct (ObjectId.castable rid) eqn:Hcast.
      * rewrite (sendMessage_not_found w me rid c now Hr Hc Hu Hcast). simpl. auto.
      * destruct (sendMessage_malformed w me rid c now Hr Hc Hu Hcast) as [msg ->].
        simpl. auto.
Qed.

Lemma markMessagesAsRead_world (w : World) (me senderId : string) (now : Z) :
  let w' := (respond (markMessagesAsRead me senderId now) w).2 in
  users w' = users w ∧
  (messages w' = messages w ∨ messages w' = Message.mark_read senderId me (messages w)).
Proof.
  assert (throttled w me senderId now ∨ ¬ throttled w me senderId now) as [Hth|Hp]
    by (unfold throttled; lia).
  - rewrite (markMessagesAsRead_throttled w me senderId now Hth). simpl. auto.
  - rewrite (markMessagesAsRead_processed w me senderId now Hp).
    destruct (User.findById (users w) senderId); [|destruct (ObjectId.castable senderId)];
      simpl; auto.
Qed.

Lemma getConversations_world (w : World) (me : string) :
  same_store w (getConversations me w).2.
Proof.
  destruct (getConversations_run w me) as [ops ->]. by repeat split.
Qed.

Section routes_facts.
Context (verify : string → option string).
Context (localeCompare : string → string → Z).
Context (toLocaleTimeString toLocaleDateString : Z → string).
Context (getDay : Z → nat).

Local Abbreviation getChatContacts :=
  (getChatContacts localeCompare toLocaleTimeString toLocaleDateString getDay).
Local Abbreviation route :=
  (route verify localeCompare toLocaleTimeString toLocaleDateString getDay).
Local Abbreviation serve :=
  (serve verify localeCompare toLocaleTimeString toLocaleDateString getDay).
Local Abbreviation protect := (protect verify).

Lemma getChatContacts_world (w : World) (me : string) (now : Z) :
  same_store w (respond (getChatContacts me now) w).2.
Proof.
  unfold respond, getChatContacts.
  unfold bind at 1. unfold Db.userFindById at 1.
  destruct (User.findById (users w) me) as [currentUser|]; [|done].
  unfold bind at 1. unfold Db.messageFindDesc at 1. cbn [users messages log].
  set (ids := messageUserIds (User._id currentUser) _).
  set (w2 := log MessageFind (log (UserFindById me) w)).
  assert (∃ v w3, (if decide (0 < size ids)%nat
                   then Db.userFind (User.IdIn ids) else ret []) w2
                  = (Returned v, w3) ∧ same_store w w3) as (v & w3 & Hw3 & Hu3 & Hm3 & Hc3).
  { case_decide; eexists _, _; (split; [reflexivity|done]). }
  unfold bind at 1. rewrite Hw3.
  unfold bind at 1. unfold try_catch.
  destruct (reads_roleContacts currentUser w3) as [ops4 ->].
  set (w4 := mkWorld _ _ _ _).
  unfold bind at 1.
  destruct (reads_contactStats toLocaleTimeString toLocaleDateString getDay
              currentUser now (mergeContacts v (eligible (users w3) currentUser)) w4)
    as [ops5 ->].
  simpl. by repeat split.
Qed.

Lemma bearer_token_Some (authorization : option string) (token : string) :
  bearer_token authorization = Some token →
  ∃ h, authorization = Some h ∧ String.prefix "Bearer" h = true ∧
       split_space h !! 1%nat = Some token.
Proof.
  unfold bearer_token. destruct authorization as [h|]; [|done].
  destruct (truthy h && String.prefix "Bearer" h) eqn:Hh; [|done].
  apply andb_true_iff in Hh as [_ Hpre]. intros Hs. by exists h.
Qed.

Lemma protect_next (authorization : option string) (w w' : World) (user : User.t) :
  protect authorization w = (Next user, w') →
  same_store w w' ∧
  ∃ token, bearer_token authorization = Some token ∧ truthy token = true ∧
           verify token = Some (User._id user) ∧
           User.findById (users w) (User._id user) = Some user.
Proof.
  unfold protect. destruct (bearer_token authorization) as [token|]; [|done].
  destruct (truthy token) eqn:Ht; [|done].
  destruct (verify token) as [id|] eqn:Hv; [|done].
  destruct (User.findById (users w) id) as [u|] eqn:Hu; [|done].
  intros [= <- <-]. pose proof (findById_Some _ _ _ Hu) as [_ <-].
  split; [done|]. by exists token.
Qed.

Lemma protect_refused (authorization : option string) (w w' : World) (st : Z)
    (msg : string) :
  protect authorization w = (Refused st msg, w') →
  same_store w w' ∧ st = 401 ∧
  ¬ ∃ token id user, bearer_token authorization = Some token ∧ truthy token = true ∧
                     verify token = Some id ∧ User.findById (users w) id = Some user.
Proof.
  unfold protect. destruct (bearer_token authorization) as [token|].
  - destruct (truthy token) eqn:Ht.
    + destruct (verify token) as [id|] eqn:Hv.
      * destruct (User.findById (users w) id) as [u|] eqn:Hu; [done|].
        intros [= <- <- <-]. split_and!; [by destruct (ObjectId.castable id)|done|].
        intros (? & ? & ? & [= <-] & _ & ? & ?). congruence.
      * intros [= <- <- <-]. split_and!; [done..|].
        intros (? & ? & ? & [= <-] & _ & ? & ?). congruence.
    + intros [= <- <- <-]. split_and!; [done..|].
      intros (? & ? & ? & [= <-] & ? & _). congruence.
  - intros [= <- <- <-]. split_and!; [done..|]. by intros (? & ? & ? & ? & _).
Qed.

(** What one request does to the store. *)
Lemma route_step (req : HttpRequest) (now : Z) (w : World) :
  users (route req now w).2 = users w ∧
  message_step w now (messages (route req now w).2).
Proof.
  unfold route. destruct (protect (authorization req) w) as [[user|st msg] w1] eqn:Hp.
  - apply protect_next in Hp as ((Hu1 & Hm1 & Hc1) & token & _ & _ & _ & Hfind).
    assert (is_Some (User.findById (users w) (User._id user))) as Huser by eauto.
    unfold message_step. rewrite <- Hu1, <- Hm1.
    destruct (method req), (path req) as [|a [|b [|c rest]]]; simpl;
      repeat case_decide; simpl; auto.
    + destruct (getConversations_run w1 (User._id user)) as [ops ->]. simpl. auto.
    + destruct (getChatContacts_world w1 (User._id user) now) as (-> & -> & _). auto.
    + destruct (getConversation_world w1 (User._id user) a) as (-> & _ & [->| ->]);
        [auto|]. split; [done|]. right. left. by eexists _, _.
    + destruct (sendMessage_world w1 (User._id user) (bodyRecipientId req)
                  (bodyContent req) now) as (-> & _ & [->|(r & c & -> & _ & _ & _ & _ & Hr)]);
        [auto|].
      split; [done|]. right. right. exists (User._id user), r, c.
      split_and!; [done| |done]. by rewrite Hu1.
    + destruct (markMessagesAsRead_world w1 (User._id user) a now) as (-> & [->| ->]);
        [auto|]. split; [done|]. right. left. by eexists _, _.
  - apply protect_refused in Hp as ((Hu1 & Hm1 & _) & _). simpl. split; [done|]. by left.
Qed.

Lemma aged_refl (m : Message.t) : aged m m.
Proof. by repeat split. Qed.

Lemma aged_trans (m1 m2 m3 : Message.t) : aged m1 m2 → aged m2 m3 → aged m1 m3.
Proof.
  intros (? & ? & ? & ? & ? & H12) (? & ? & ? & ? & ? & H23).
  repeat split; try congruence. auto.
Qed.

Lemma marked_aged (s r : string) (m m' : Message.t) : marked s r m m' → aged m m'.
Proof.
  intros (? & ? & ? & ? & ? & Hread). repeat split; try done.
  intros Hm. rewrite Hread. by case_decide.
Qed.

Lemma evolves_refl (w : World) : evolves w w.
Proof.
  split; [done|]. exists (messages w), []. rewrite app_nil_r. split; [done|].
  apply Forall_Forall2_diag, Forall_forall. intros m _. apply aged_refl.
Qed.

Lemma evolves_trans (w1 w2 w3 : World) : evolves w1 w2 → evolves w2 w3 → evolves w1 w3.
Proof.
  intros (Hu12 & old1 & new1 & Hm12 & Ha12) (Hu23 & old2 & new2 & Hm23 & Ha23).
  split; [congruence|]. rewrite Hm12 in Ha23.
  apply Forall2_app_inv_l in Ha23 as (old2a & old2b & Ha & Hb & ->).
  exists old2a, (old2b ++ new2). split; [by rewrite Hm23, (assoc_L (++))|].
  clear -Ha12 Ha. revert old2a Ha. induction Ha12 as [|m m' l l' Hmm' _ IH]; intros k Ha.
  - by apply Forall2_nil_inv_l in Ha as ->.
  - apply Forall2_cons_inv_l in Ha as (m'' & k' & Hm'' & Hk' & ->).
    constructor; [by eapply aged_trans|by apply IH].
Qed.

Lemma message_step_evolves (w w' : World) (now : Z) :
  users w' = users w → message_step w now (messages w') → evolves w w'.
Proof.
  intros Hu [Hm|[(s & r & Hm)|(s & r & c & Hm & _)]]; (split; [done|]).
  - exists (messages w), []. rewrite app_nil_r. split; [done|].
    apply Forall_Forall2_diag, Forall_forall. intros m _. apply aged_refl.
  - exists (messages w'), []. rewrite app_nil_r. split; [done|]. rewrite Hm.
    eapply Forall2_impl; [apply mark_read_marked|]. apply marked_aged.
  - eexists _, _. split; [exact Hm|].
    apply Forall_Forall2_diag, Forall_forall. intros m _. apply aged_refl.
Qed.

Lemma message_step_linked (w : World) (now : Z) (msgs' : list Message.t) :
  linked (users w) (messages w) → message_step w now msgs' → linked (users w) msgs'.
Proof.
  intros Hl [->|[(s & r & ->)|(s & r & c & -> & Hs & Hr)]]; [done|..]; intros m Hm.
  - apply list_elem_of_lookup in Hm as [i Hi].
    destruct (Forall2_lookup_r _ _ _ _ _ (mark_read_marked s r (messages w)) Hi)
      as (m0 & Hm0 & (_ & Hs & Hr & _)).
    rewrite Hs, Hr. by eapply Hl, list_elem_of_lookup_2.
  - apply elem_of_app in Hm as [Hm|Hm]; [by apply Hl|].
    apply list_elem_of_singleton in Hm as ->. by split.
Qed.

(** X4.  Whatever requests reach the message routes, in whatever order,
    the users stay as they are and every stored message stays in place
    with its id, sender, recipient, content and creation time; a message
    that is read stays read; messages are only ever appended. *)
Theorem serve_evolves (reqs : list (HttpRequest * Z)) (w : World) :
  evolves w (serve w reqs).
Proof.
  revert w. induction reqs as [|[req now] reqs IH]; intros w.
  - apply evolves_refl.
  - unfold serve. cbn [foldl]. cbn [fst snd].
    eapply evolves_trans; [|apply IH].
    destruct (route_step req now w) as [Hu Hm]. by eapply message_step_evolves.
Qed.

(** X6.  If the sender and the recipient of every stored message are
    users, they still are after every sequence of requests: [protect]
    makes the sender a user and [sendMessage] checks the recipient. *)
Theorem serve_linked (reqs : list (HttpRequest * Z)) (w : World) :
  linked (users w) (messages w) →
  linked (users (serve w reqs)) (messages (serve w reqs)).
Proof.
  revert w. induction reqs as [|[req now] reqs IH]; intros w Hl; [done|].
  unfold serve. cbn [foldl]. cbn [fst snd]. apply IH.
  destruct (route_step req now w) as [Hu Hm]. rewrite Hu.
  by eapply message_step_linked.
Qed.

(** X7.  A request is answered 401, whatever its method and path, and
    leaves users, messages and throttle cache as they are, unless its
    [Authorization] header starts with the characters [Bearer], the
    second of its pieces between single spaces is a non-empty token, the
    token verifies to an id, and the id is a user's. *)
Theorem route_requires_user (req : HttpRequest) (now : Z) (w : World) :
  (¬ ∃ h token id user,
       authorization req = Some h ∧ String.prefix "Bearer" h = true ∧
       split_space h !! 1%nat = Some token ∧ token ≠ "" ∧
       verify token = Some id ∧ User.findById (users w) id = Some user) →
  ∃ msg, (route req now w).1 = Standard (mkResponse 401 (Failure msg)) ∧
         same_store w (route req now w).2.
Proof.
  intros Hno. unfold route.
  destruct (protect (authorization req) w) as [[user|st msg] w1] eqn:Hp.
  - apply protect_next in Hp as (_ & token & Hb & Ht & Hv & Hf).
    destruct Hno. apply bearer_token_Some in Hb as (h & Hh & Hpre & Hsplit).
    exists h, token, (User._id user), user. split_and!; try done.
    by apply bool_decide_eq_true in Ht.
  - apply protect_refused in Hp as (Hsame & -> & _). by exists msg.
Qed.

(** X8.  Through the router the contact list is never answered with the
    500 of a missing requester.  On [GET /contacts], a request that
    passes [protect] as [user] is answered 200 with the contacts of
    [user], sorted; a request that [protect] refuses is answered 401
    with the message of [protect]; there is no other case. *)
Theorem contacts_route_status (req : HttpRequest) (now : Z) (w : World) :
  method req = GET → path req = ["contacts"] →
  (∀ user w1, protect (authorization req) w = (Next user, w1) →
     (route req now w).1
     = Standard
         (mkResponse 200
            (ContactsData
               (sortContacts localeCompare
                  (stats toLocaleTimeString toLocaleDateString getDay
                     (messages w) user now
                   <$> resolve (users w) (messages w) user))))) ∧
  (∀ st msg w1, protect (authorization req) w = (Refused st msg, w1) →
     (route req now w).1 = Standard (mkResponse 401 (Failure msg))) ∧
  ∃ r, (route req now w).1 = Standard r ∧ (status r = 200 ∨ status r = 401).
Proof.
  intros Hm Hpath.
  assert (∀ user w1, protect (authorization req) w = (Next user, w1) →
            (route req now w).1
            = Standard
                (mkResponse 200
                   (ContactsData
                      (sortContacts localeCompare
                         (stats toLocaleTimeString toLocaleDateString getDay
                            (messages w) user now
                          <$> resolve (users w) (messages w) user))))) as Hpass.
  { intros user w1 Hp. unfold route. rewrite Hm, Hpath, Hp.
    apply protect_next in Hp as ((Hu1 & Hm1 & _) & token & _ & _ & _ & Hf).
    rewrite decide_True by done. unfold standard. cbn [fst snd].
    rewrite <- Hu1 in Hf.
    rewrite (getChatContacts_run localeCompare toLocaleTimeString toLocaleDateString
               getDay w1 (User._id user) now user Hf).
    by rewrite Hu1, Hm1. }
  assert (∀ st msg w1, protect (authorization req) w = (Refused st msg, w1) →
            (route req now w).1 = Standard (mkResponse 401 (Failure msg))) as Hrefused.
  { intros st msg w1 Hp. unfold route. rewrite Hp.
    by apply protect_refused in Hp as (_ & -> & _). }
  split_and!; [done..|].
  destruct (protect (authorization req) w) as [[user|st msg] w1] eqn:Hp.
  - eexists. split; [by eapply Hpass|]. by left.
  - eexists. split; [by eapply Hrefused|]. by right.
Qed.

End routes_facts.

Lemma serve_linked_witness :
  linked (users (Runtime.serve Scenario.empty Runtime.session))
         (messages (Runtime.serve Scenario.empty Runtime.session)).
Proof.
  apply (serve_linked Runtime.verify codeUnitCompare Runtime.clock Runtime.date
           Runtime.weekday Runtime.session Scenario.empty).
  intros m Hm. by apply elem_of_nil in Hm.
Defined.

Lemma route_requires_user_witness :
  ∃ msg, (Runtime.route (mkRequest POST [] (Some "Bearer") (Some "B") (Some "Hello")) 1000
            Scenario.empty).1 = Standard (mkResponse 401 (Failure msg)).
Proof.
  destruct (route_requires_user Runtime.verify codeUnitCompare Runtime.clock Runtime.date
              Runtime.weekday (mkRequest POST [] (Some "Bearer") (Some "B") (Some "Hello"))
              1000 Scenario.empty) as (msg & Hmsg & _).
  - intros (h & token & id & user & Hh & _ & Hs & _). simpl in Hh.
    injection Hh as <-. vm_compute in Hs. discriminate Hs.
  - by exists msg.
Defined.

Lemma contacts_route_status_witness :
  ∃ r, (Runtime.route (mkRequest GET ["contacts"] (Some "Bearer A") None None) 1000
          Scenario.hello_sent).1 = Standard r ∧ status r = 200.
Proof.
  eexists. split.
  - refine (proj1 (contacts_route_status Runtime.verify codeUnitCompare Runtime.clock
                     Runtime.date Runtime.weekday
                     (mkRequest GET ["contacts"] (Some "Bearer A") None None) 1000
                     Scenario.hello_sent _ _) Scenario.A _ _); reflexivity.
  - reflexivity.
Defined.

(** ** The throttle cache *)

Lemma evict_old_lookup (now : Z) (cache : gmap string Z) (k : string) (t : Z) :
  evict_old now cache !! k = Some t ↔ cache !! k = Some t ∧ now - t ≤ 60000.
Proof.
  unfold evict_old. rewrite map_lookup_filter_Some. simpl. split; intros [? ?]; split;
    (done || lia).
Qed.

Lemma processed_cache (w : World) (me senderId : string) (now : Z) :
  ¬ throttled w me senderId now →
  readOperationsCache (respond (markMessagesAsRead me senderId now) w).2
  = evict_old now (<[cacheKey me senderId := now]> (readOperationsCache w)).
Proof.
  intros Hp. rewrite (markMessagesAsRead_processed w me senderId now Hp).
  by destruct (User.findById (users w) senderId), (ObjectId.castable senderId).
Qed.

(** X9.  After a processed mark-as-read request the cache holds the
    instant of that request under its key and no entry older than one
    minute, and every other entry is one it held before. *)
Theorem read_cache_bounded (w : World) (me senderId : string) (now : Z) :
  ¬ throttled w me senderId now →
  let cache' := readOperationsCache (respond (markMessagesAsRead me senderId now) w).2 in
  cache' !! cacheKey me senderId = Some now ∧
  ∀ k t, cache' !! k = Some t →
         now - t ≤ 60000 ∧
         (k = cacheKey me senderId ∨ readOperationsCache w !! k = Some t).
Proof.
  intros Hp cache'. unfold cache'. rewrite (processed_cache w me senderId now Hp).
  split; [apply evict_old_lookup_now|].
  intros k t [Hk Hold]%evict_old_lookup. split; [done|].
  destruct (decide (k = cacheKey me senderId)) as [->|Hne]; [by left|right].
  by rewrite lookup_insert_ne in Hk.
Qed.

Lemma read_cache_bounded_witness :
  readOperationsCache (respond (markMessagesAsRead "B" "A" 100000) Scenario.hello_sent).2
    !! cacheKey "B" "A" = Some 100000.
Proof.
  refine (proj1 (read_cache_bounded Scenario.hello_sent "B" "A" 100000 _)).
  by vm_compute.
Defined.

(** X10.  A processed request for an existing sender answers 200 with
    the number of messages from the sender to the requester that were
    unread; afterwards none of them is unread, and no other message and
    no other field has changed. *)
Theorem markRead_count (w : World) (me senderId : string) (now : Z) :
  ¬ throttled w me senderId now →
  is_Some (User.findById (users w) senderId) →
  let w' := (respond (markMessagesAsRead me senderId now) w).2 in
  (respond (markMessagesAsRead me senderId now) w).1
    = mkResponse 200
        (ReadReceipt "Messages marked as read"
           (Z.of_nat (length (filter (Message.unread_from_to senderId me) (messages w))))
           false) ∧
  filter (Message.unread_from_to senderId me) (messages w') = [] ∧
  Forall2 (marked senderId me) (messages w) (messages w') ∧
  users w' = users w.
Proof.
  intros Hp [u Hu] w'. unfold w'.
  rewrite (markMessagesAsRead_processed w me senderId now Hp), Hu. simpl.
  split_and!; [done| |apply mark_read_marked|done]. apply mark_read_no_unread.
Qed.

Lemma markRead_count_witness :
  (respond (markMessagesAsRead "B" "A" 100000) Scenario.hello_sent).1
  = mkResponse 200 (ReadReceipt "Messages marked as read" 1 false).
Proof.
  refine (proj1 (markRead_count Scenario.hello_sent "B" "A" 100000 _ _)).
  - by vm_compute.
  - vm_compute. by eexists.
Defined.

Lemma string_app_inj (p s t : string) : p +:+ s = p +:+ t → s = t.
Proof.
  induction p as [|a p IH]; simpl; [done|]. intros [= H]. by apply IH.
Qed.

Lemma cacheKey_sender_inj (me s1 s2 : string) :
  cacheKey me s1 = cacheKey me s2 → s1 = s2.
Proof.
  unfold cacheKey. intros H%string_app_inj. by apply (string_app_inj "-") in H.
Qed.

(** X11.  The throttle is per sender: a processed request of a user for
    one sender does not throttle a request of that user for another
    sender that was not throttled before. *)
Theorem throttle_is_per_sender (w : World) (me s1 s2 : string) (t1 t2 : Z) :
  ¬ throttled w me s1 t1 → s1 ≠ s2 → 5000 ≤ t2 →
  ¬ throttled w me s2 t2 →
  ¬ throttled (respond (markMessagesAsRead me s1 t1) w).2 me s2 t2.
Proof.
  intros Hp Hne Ht2 Hfree. unfold throttled in *.
  rewrite (processed_cache w me s1 t1 Hp).
  destruct (evict_old t1 (<[cacheKey me s1:=t1]> (readOperationsCache w))
              !! cacheKey me s2) as [t|] eqn:Hk; simpl; [|lia].
  apply evict_old_lookup in Hk as [Hk _].
  rewrite lookup_insert_ne in Hk by (intros ?%cacheKey_sender_inj; done).
  by rewrite Hk in Hfree.
Qed.

Lemma throttle_is_per_sender_witness :
  ¬ throttled (respond (markMessagesAsRead "B" "A" 100000) Scenario.hello_sent).2
      "B" "M" 101000.
Proof.
  apply throttle_is_per_sender; [by vm_compute|discriminate|lia|by vm_compute].
Defined.

(** ** Unread counts across requests *)

Section unread_facts.
Context (localeCompare : string → string → Z).
Context (toLocaleTimeString toLocaleDateString : Z → string).
Context (getDay : Z → nat).

Local Abbreviation stats := (stats toLocaleTimeString toLocaleDateString getDay).
Local Abbreviation getChatContacts :=
  (getChatContacts localeCompare toLocaleTimeString toLocaleDateString getDay).

(** The rows of the contact list are the statistics of the resolved
    candidates. *)
Lemma contact_rows (w : World) (me : string) (now : Z) (currentUser : User.t)
    (cs : list Contact) :
  User.findById (users w) me = Some currentUser →
  (respond (getChatContacts me now) w).1 = mkResponse 200 (ContactsData cs) →
  ∀ c, c ∈ cs ↔ ∃ u, u ∈ resolve (users w) (messages w) currentUser ∧
                     c = stats (messages w) currentUser now u.
Proof.
  intros Hcu Hresp c.
  rewrite (getChatContacts_run _ _ _ _ w me now currentUser Hcu) in Hresp.
  injection Hresp as <-. unfold sortContacts.
  rewrite elem_of_stable_sort, list_elem_of_fmap.
  split; intros (u & ? & ?); by exists u.
Qed.

(** X12.  Once a user has fetched the conversation with [u], the contact
    list of that user shows no unread message for [u]. *)
Theorem conversation_clears_unread (w : World) (me u : string) (now : Z)
    (cs : list Contact) (c : Contact) :
  is_Some (User.findById (users w) me) →
  is_Some (User.findById (users w) u) →
  let w1 := (respond (getConversation me u) w).2 in
  (respond (getChatContacts me now) w1).1 = mkResponse 200 (ContactsData cs) →
  c ∈ cs → contactId c = u → unreadCount c = 0.
Proof.
  intros [cu Hcu] [uu Hu] w1 Hresp Hc Hid.
  assert (users w1 = users w ∧ messages w1 = Message.mark_read u me (messages w))
    as [Hus Hms] by (unfold w1; by rewrite (getConversation_run w me u uu Hu)).
  rewrite <- Hus in Hcu.
  apply (contact_rows w1 me now cu cs Hcu Hresp) in Hc as (x & _ & ->).
  simpl in *. rewrite Hid, Hms. apply findById_Some in Hcu as [_ ->].
  by rewrite mark_read_no_unread.
Qed.

(** X13.  After [s] has sent a message to another user [r], the contact
    list of [r] contains [s] with one unread message more than [s] had
    unread for [r] before. *)
Theorem send_raises_unread (w : World) (s r content : string) (t now : Z) :
  truthy r = true → truthy content = true → s ≠ r →
  is_Some (User.findById (users w) s) →
  is_Some (User.findById (users w) r) →
  let w1 := (respond (sendMessage s (Some r) (Some content) t) w).2 in
  ∃ cs c,
    (respond (getChatContacts r now) w1).1 = mkResponse 200 (ContactsData cs) ∧
    c ∈ cs ∧ contactId c = s ∧
    unreadCount c
      = Z.of_nat (length (filter (Message.unread_from_to s r) (messages w))) + 1.
Proof.
  intros Hr Hc Hne [su Hsu] [ru Hru] w1.
  set (m := Message.create (messages w) s r content t).
  assert (users w1 = users w ∧ messages w1 = messages w ++ [m]) as [Hus Hms].
  { unfold w1. by destruct (sendMessage_created w s r content t ru Hr Hc Hru) as [p ->]. }
  pose proof (findById_Some _ _ _ Hsu) as [Hsin Hsid].
  pose proof (findById_Some _ _ _ Hru) as [_ Hrid].
  rewrite <- Hus in Hru.
  eexists _, (stats (messages w1) ru now su).
  split; [apply (getChatContacts_run _ _ _ _ w1 r now ru Hru)|]. split_and!.
  - unfold sortContacts. rewrite elem_of_stable_sort. apply list_elem_of_fmap_2.
    unfold resolve. apply mergeContacts_keeps. rewrite Hrid. apply elem_of_partners.
    rewrite Hus. split_and!; [done|congruence|]. exists m. split.
    + rewrite Hms, elem_of_app. right. by left.
    + right. by rewrite Hsid.
  - done.
  - simpl. rewrite Hsid, Hrid, Hms, filter_app, length_app.
    rewrite filter_cons_True by done. simpl. lia.
Qed.

End unread_facts.

Lemma conversation_clears_unread_witness :
  unreadCount (mkContact "A" "Aisha" "a.png" "user" 0 "10:15 AM") = 0.
Proof.
  refine (conversation_clears_unread codeUnitCompare Runtime.clock Runtime.date
            Runtime.weekday Scenario.hello_sent "B" "A" 2000 _ _ _ _ _ _ _).
  - vm_compute. by eexists.
  - vm_compute. by eexists.
  - by vm_compute.
  - left.
  - reflexivity.
Defined.

Lemma send_raises_unread_witness :
  ∃ cs c,
    (respond (getChatContacts codeUnitCompare Runtime.clock Runtime.date Runtime.weekday
                "B" 3000)
       (respond (sendMessage "A" (Some "B") (Some "Again") 2000) Scenario.hello_sent).2).1
      = mkResponse 200 (ContactsData cs) ∧
    c ∈ cs ∧ contactId c = "A" ∧ unreadCount c = 2.
Proof.
  refine (send_raises_unread codeUnitCompare Runtime.clock Runtime.date Runtime.weekday
            Scenario.hello_sent "A" "B" "Again" 2000 3000 _ _ _ _ _).
  - reflexivity.
  - reflexivity.
  - discriminate.
  - vm_compute. by eexists.
  - vm_compute. by eexists.
Defined.

(** ** Presence and delivery over the socket *)

Lemma on_connection_state (s : Server.Socket) (now : Z) (st : Server.State) :
  let st' := Server.on_connection s now st in
  Server.connections st'
    = Server.connections st ++ [Server.mkConnection s (joined_rooms s)] ∧
  Server.onlineUsers st'
    = <[Server.userId s := Server.mkRecord (Server.userId s) (Server.userRole s)
                             (Server.id s) now]> (Server.onlineUsers st) ∧
  Server.delivered st'
    = Server.delivered st
      ++ ((λ c, (Server.id (Server.socket c),
                 Server.online_users (Server.listOnline st')))
            <$> Server.connections st').
Proof. done. Qed.

Lemma on_disconnect_state (s : Server.Socket) (st : Server.State) :
  let st' := Server.on_disconnect s st in
  Server.connections st'
    = filter (λ c, Server.id (Server.socket c) ≠ Server.id s) (Server.connections st) ∧
  Server.onlineUsers st' = delete (Server.userId s) (Server.onlineUsers st) ∧
  Server.delivered st'
    = Server.delivered st
      ++ ((λ c, (Server.id (Server.socket c),
                 Server.online_users (Server.listOnline st')))
            <$> Server.connections st').
Proof. done. Qed.

(** The handshake admits a socket exactly when the token decodes to a
    payload with a non-empty id; the socket then carries that id and a
    non-empty role, which is [user] when the payload has none. *)
Lemma authenticate_socket (socketId : string)
    (decoded : option (option string * option string)) :
  (∀ s, Server.authenticate socketId decoded = Some s →
        Server.id s = socketId ∧ truthy (Server.userId s) = true ∧
        truthy (Server.userRole s) = true ∧
        ∃ role, decoded = Some (Some (Server.userId s), role) ∧
                (truthy_opt role = true → role = Some (Server.userRole s)) ∧
                (truthy_opt role = false → Server.userRole s = "user")) ∧
  (Server.authenticate socketId decoded = None ↔
   ∀ uid role, decoded = Some (uid, role) → truthy_opt uid = false).
Proof.
  unfold Server.authenticate. split.
  - intros s. destruct decoded as [[uid role]|]; [|done].
    destruct uid as [uid|]; [|done]. simpl.
    destruct (truthy uid) eqn:Hu; [|done].
    destruct role as [r|]; simpl.
    + destruct (truthy r) eqn:Hr; intros [= <-]; simpl; split_and!; try done;
        exists (Some r); simpl; rewrite Hr; split_and!; done.
    + intros [= <-]. simpl. split_and!; try done. by exists None.
  - destruct decoded as [[uid role]|]; [|by split].
    destruct (truthy_opt uid) eqn:Hu.
    + split; [done|]. intros H. specialize (H uid role eq_refl). congruence.
    + split; [|done]. intros _ uid' role' [= <- <-]. done.
Qed.

(** X14.  On a connection every connected socket, the new one included,
    is sent the list of online users, which contains the user of the new
    socket. *)
Theorem connect_broadcast (s : Server.Socket) (now : Z) (st : Server.State)
    (c : Server.Connection) :
  let st' := Server.on_connection s now st in
  c ∈ Server.connections st ∨ c = Server.mkConnection s (joined_rooms s) →
  Server.userId s ∈ Server.listOnline st' ∧
  (Server.id (Server.socket c), Server.online_users (Server.listOnline st'))
    ∈ Server.delivered st'.
Proof.
  intros st' Hc. destruct (on_connection_state s now st) as (Hconn & Hreg & Hdel).
  fold st' in Hconn, Hreg, Hdel. split.
  - unfold Server.listOnline. rewrite elem_of_keys, Hreg, lookup_insert_eq. by eexists.
  - rewrite Hdel, elem_of_app. right.
    apply (list_elem_of_fmap_2 (λ c, (Server.id (Server.socket c),
                                      Server.online_users (Server.listOnline st')))).
    rewrite Hconn, elem_of_app. destruct Hc as [?| ->]; [by left|right; by left].
Qed.

Lemma connect_broadcast_witness :
  ("s1", Server.online_users ["A"]) ∈ Server.delivered Scenario.only_A_online.
Proof.
  refine (proj2 (connect_broadcast Scenario.s1 5 Server.initial
                   (Server.mkConnection Scenario.s1 (joined_rooms Scenario.s1)) _)).
  by right.
Defined.

(** X15.  On a disconnection the user leaves the online list, every
    socket that remains is sent the new list, and the socket that left is
    sent nothing. *)
Theorem disconnect_broadcast (s : Server.Socket) (st : Server.State) :
  let st' := Server.on_disconnect s st in
  (Server.userId s ∉ Server.listOnline st') ∧
  (∀ c, c ∈ Server.connections st → Server.id (Server.socket c) ≠ Server.id s →
        (Server.id (Server.socket c), Server.online_users (Server.listOnline st'))
          ∈ Server.delivered st') ∧
  (∀ e, (Server.id s, e) ∈ Server.delivered st' → (Server.id s, e) ∈ Server.delivered st).
Proof.
  intros st'. destruct (on_disconnect_state s st) as (Hconn & Hreg & Hdel).
  fold st' in Hconn, Hreg, Hdel. split_and!.
  - unfold Server.listOnline. rewrite elem_of_keys, Hreg, lookup_delete_eq.
    by intros [? ?].
  - intros c Hc Hne. rewrite Hdel, elem_of_app. right.
    apply (list_elem_of_fmap_2 (λ c, (Server.id (Server.socket c),
                                      Server.online_users (Server.listOnline st')))).
    rewrite Hconn. by apply list_elem_of_filter.
  - intros e. rewrite Hdel, elem_of_app. intros [?|Hin]; [done|].
    apply list_elem_of_fmap in Hin as (c & [= Hid _] & Hc).
    rewrite Hconn in Hc. apply list_elem_of_filter in Hc as [Hne _]. by destruct Hne.
Qed.

(** X16.  The registry keeps one session per user: when a user is
    connected through two sockets and the first one disconnects, the user
    leaves the online list although the second socket is still connected
    and still in the user's room. *)
Theorem second_session_goes_offline (st : Server.State) (s1 s2 : Server.Socket)
    (t1 t2 : Z) :
  Server.userId s1 = Server.userId s2 → Server.id s1 ≠ Server.id s2 →
  let st' := foldl handle st [Connect s1 t1; Connect s2 t2; Disconnect s1] in
  (Server.userId s2 ∉ Server.listOnline st') ∧
  Server.mkConnection s2 (joined_rooms s2) ∈ sessions_of st' (Server.userId s2).
Proof.
  intros Hu Hid st'. split.
  - unfold st'. cbn [foldl handle]. unfold Server.listOnline.
    rewrite elem_of_keys, (proj1 (proj2 (on_disconnect_state s1 _))), <- Hu.
    rewrite lookup_delete_eq. by intros [? ?].
  - unfold sessions_of. apply list_elem_of_filter. split.
    + simpl. unfold joined_rooms. rewrite !elem_of_union, !elem_of_singleton. auto.
    + unfold st'. cbn [foldl handle].
      rewrite (proj1 (on_disconnect_state s1 _)). apply list_elem_of_filter.
      split; [simpl; congruence|].
      rewrite (proj1 (on_connection_state s2 t2 _)), elem_of_app. right. by left.
Qed.

Lemma second_session_goes_offline_witness :
  "A" ∉ Server.listOnline
          (foldl handle Server.initial
             [Connect Scenario.s1 5; Connect (Server.mkSocket "s2" "A" "user") 6;
              Disconnect Scenario.s1]).
Proof.
  refine (proj1 (second_session_goes_offline Server.initial Scenario.s1
                   (Server.mkSocket "s2" "A" "user") 5 6 _ _)).
  - reflexivity.
  - discriminate.
Defined.

Lemma filter_ext_in {A} (P Q : A → Prop) `{!∀ x, Decision (P x), !∀ x, Decision (Q x)}
    (l : list A) :
  (∀ x, x ∈ l → (P x ↔ Q x)) → filter P l = filter Q l.
Proof.
  induction l as [|x l IH]; intros Hext; [done|].
  rewrite !filter_cons, IH by (intros y Hy; apply Hext; by right).
  apply decide_ext, Hext. by left.
Qed.

Lemma on_send_message_state (s : Server.Socket) (message : option Server.MessagePayload)
    (now : Z) (st : Server.State) :
  let st' := (Server.on_send_message s message now st).1 in
  Server.connections st' = Server.connections st ∧
  (Server.onlineUsers st' = Server.onlineUsers st ∨
   ∃ userData, Server.onlineUsers st !! Server.userId s = Some userData ∧
               Server.onlineUsers st'
               = <[Server.userId s := Server.touch now userData]> (Server.onlineUsers st)).
Proof.
  unfold Server.on_send_message. destruct message as [m|]; [|by split; [|left]].
  destruct (Server.valid_recipient (Some m)) as [rid|]; [|by split; [|left]].
  destruct (Server.onlineUsers st !! Server.userId s) as [userData|] eqn:Hu,
           (Server.sender m); simpl; (split; [done|]); eauto.
Qed.

Lemma on_send_message_delivered (s : Server.Socket) (message : Server.MessagePayload)
    (rid : string) (now : Z) (st : Server.State) :
  Server.valid_recipient (Some message) = Some rid →
  Server.delivered (Server.on_send_message s (Some message) now st).1
  = Server.delivered st
    ++ ((λ c, (Server.id (Server.socket c), Server.new_message message))
          <$> sessions_of st rid)
    ++ [(Server.id s, Server.message_sent (Server.message_id message) rid now)].
Proof.
  intros Hrid. unfold Server.on_send_message. rewrite Hrid.
  destruct (Server.sender message), (Server.onlineUsers st !! Server.userId s);
    simpl; by rewrite <- (assoc_L (++)).
Qed.

Lemma handle_rooms (st : Server.State) (e : SocketEvent) :
  rooms_as_joined st → rooms_as_joined (handle st e).
Proof.
  intros Hst. destruct e as [s now|s|s message now|s data|s]; simpl.
  - intros c. rewrite (proj1 (on_connection_state s now st)), elem_of_app.
    intros [Hc| ->%list_elem_of_singleton]; [by apply Hst|done].
  - done.
  - intros c. rewrite (proj1 (on_send_message_state s message now st)). apply Hst.
  - unfold Server.on_typing. destruct data as [d|]; [|done].
    by destruct (truthy_opt (Server.recipientId d)).
  - intros c. rewrite (proj1 (on_disconnect_state s st)).
    intros [_ Hc]%list_elem_of_filter. by apply Hst.
Qed.

Lemma play_rooms (events : list SocketEvent) : rooms_as_joined (play events).
Proof.
  unfold play.
  cut (∀ st, rooms_as_joined st → rooms_as_joined (foldl handle st events)).
  { intros H. apply H. intros c Hc. by apply elem_of_nil in Hc. }
  induction events as [|e events IH]; intros st Hst; [done|].
  simpl. by apply IH, handle_rooms.
Qed.

(** X17.  After any sequence of socket events, a message whose recipient
    has id [rid] is pushed to exactly the connected sockets whose own id,
    user id or role room is [rid], then acknowledged to the sender; in
    particular every connected socket of user [rid] receives it. *)
Theorem delivery_reaches_recipient (events : list SocketEvent) (s : Server.Socket)
    (message : Server.MessagePayload) (rid : string) (now : Z) :
  Server.valid_recipient (Some message) = Some rid →
  let st := play events in
  let st' := (Server.on_send_message s (Some message) now st).1 in
  Server.delivered st'
  = Server.delivered st
    ++ ((λ c, (Server.id (Server.socket c), Server.new_message message))
          <$> filter (λ c, rid ∈ joined_rooms (Server.socket c)) (Server.connections st))
    ++ [(Server.id s, Server.message_sent (Server.message_id message) rid now)] ∧
  ∀ c, c ∈ Server.connections st → Server.userId (Server.socket c) = rid →
       (Server.id (Server.socket c), Server.new_message message) ∈ Server.delivered st'.
Proof.
  intros Hrid st st'.
  assert (sessions_of st rid
          = filter (λ c, rid ∈ joined_rooms (Server.socket c)) (Server.connections st))
    as Hsessions.
  { unfold sessions_of. apply filter_ext_in. intros c Hc.
    by rewrite (play_rooms events c Hc). }
  unfold st'. rewrite (on_send_message_delivered s message rid now st Hrid), Hsessions.
  split; [done|]. intros c Hc Hu. rewrite !elem_of_app. right. left.
  apply (list_elem_of_fmap_2 (λ c, (Server.id (Server.socket c), Server.new_message message))).
  apply list_elem_of_filter. split; [|done].
  unfold joined_rooms. rewrite !elem_of_union, !elem_of_singleton. auto.
Qed.

Lemma delivery_reaches_recipient_witness :
  ("s1", Server.new_message Scenario.hello)
    ∈ Server.delivered
        (Server.on_send_message (Server.mkSocket "s9" "B" "user") (Some Scenario.hello) 7
           (play [Connect (Server.mkSocket "s9" "B" "user") 4;
                  Connect (Server.mkSocket "s1" "B" "user") 5])).1.
Proof.
  refine (proj2 (delivery_reaches_recipient
                   [Connect (Server.mkSocket "s9" "B" "user") 4;
                    Connect (Server.mkSocket "s1" "B" "user") 5]
                   (Server.mkSocket "s9" "B" "user") Scenario.hello "B" 7 _)
            (Server.mkConnection (Server.mkSocket "s1" "B" "user")
               (joined_rooms (Server.mkSocket "s1" "B" "user"))) _ _).
  - reflexivity.
  - apply list_elem_of_In. right. by left.
  - reflexivity.
Defined.

(** X18.  A [send_message] event registers and unregisters nobody and
    connects and disconnects nothing: the same ids are online afterwards,
    each with the same socket and role, and only the record of the
    sending user can differ, in its last-active time. *)
Theorem send_message_keeps_registry (s : Server.Socket)
    (message : option Server.MessagePayload) (now : Z) (st : Server.State) :
  let st' := (Server.on_send_message s message now st).1 in
  Server.connections st' = Server.connections st ∧
  (∀ u, u ∈ Server.listOnline st' ↔ u ∈ Server.listOnline st) ∧
  ∀ u r, Server.onlineUsers st !! u = Some r →
         ∃ r', Server.onlineUsers st' !! u = Some r' ∧
               Server.recUserId r' = Server.recUserId r ∧
               Server.recUserRole r' = Server.recUserRole r ∧
               Server.socketId r' = Server.socketId r ∧
               (u ≠ Server.userId s → r' = r).
Proof.
  intros st'. destruct (on_send_message_state s message now st) as [Hc Hreg].
  fold st' in Hc, Hreg. split; [done|]. unfold Server.listOnline.
  destruct Hreg as [Hreg|(userData & Hu & Hreg)]; rewrite Hreg.
  - split; [done|]. intros u r Hr. by exists r.
  - split.
    + intros u. rewrite !elem_of_keys.
      destruct (decide (u = Server.userId s)) as [->|Hne].
      * rewrite lookup_insert_eq, Hu. split; by eexists.
      * by rewrite lookup_insert_ne.
    + intros u r Hr. destruct (decide (u = Server.userId s)) as [->|Hne].
      * rewrite lookup_insert_eq. eexists. split; [done|].
        rewrite Hu in Hr. injection Hr as <-. by split_and!.
      * rewrite lookup_insert_ne by done. by exists r.
Qed.

(** ** Edge behaviour of the handlers *)



(** X20.  Listing the contacts or the conversations only reads: unlike
    fetching one conversation, it marks nothing read and changes neither
    collection nor the throttle cache. *)
Theorem listings_only_read (localeCompare : string → string → Z)
    (toLocaleTimeString toLocaleDateString : Z → string) (getDay : Z → nat)
    (w : World) (me : string) (now : Z) :
  same_store w (respond (getChatContacts localeCompare toLocaleTimeString
                           toLocaleDateString getDay me now) w).2 ∧
  same_store w (getConversations me w).2.
Proof. split; [apply getChatContacts_world|apply getConversations_world]. Qed.

Lemma append_snoc (piece : string) (c : Ascii.ascii) (s : string) :
  (piece +:+ String c "") +:+ s = piece +:+ String c s.
Proof.
  induction piece as [|a p IH]; [done|].
  change (String a ((p +:+ String c "") +:+ s) = String a (p +:+ String c s)).
  by rewrite IH.
Qed.

Lemma split_from_spaceless (piece s : string) :
  spaceless s = true → split_from piece s = [piece +:+ s].
Proof.
  revert piece. induction s as [|c s IH]; intros piece Hs; simpl.
  - f_equal. induction piece as [|a p IHp]; [done|].
    change (String a p = String a (p +:+ "")). by rewrite <- IHp.
  - simpl in Hs. apply andb_true_iff in Hs as [Hc Hs].
    apply negb_true_iff in Hc. rewrite Hc, IH by done. by rewrite append_snoc.
Qed.

(** X21.  The header made of [Bearer], one space and a token without a
    space gives [protect] back exactly that token. *)
Theorem bearer_round_trip (token : string) :
  spaceless token = true → bearer_token (Some ("Bearer " +:+ token)) = Some token.
Proof.
  intros Hs. unfold bearer_token. simpl.
  unfold split_space. simpl. by rewrite split_from_spaceless.
Qed.

Lemma bearer_round_trip_witness :
  bearer_token (Some "Bearer abc.def.ghi") = Some "abc.def.ghi".
Proof. apply (bearer_round_trip "abc.def.ghi"). reflexivity. Defined.

(** X22.  The recency label goes by elapsed time, not by calendar day: a
    latest message less than 24 hours old is labelled with its clock
    time, one of 24 to 48 hours with [Yesterday], one of 2 to 7 days (or
    dated in the future) with its weekday, an older one with its date. *)
Theorem label_by_age (toLocaleTimeString toLocaleDateString : Z → string)
    (getDay : Z → nat) (now : Z) (m : Message.t) :
  let age := now - Message.createdAt m in
  let label := formatLastMessageTime toLocaleTimeString toLocaleDateString getDay
                 now (Some m) in
  (0 ≤ age < 86400000 → label = toLocaleTimeString (Message.createdAt m)) ∧
  (86400000 ≤ age < 172800000 → label = "Yesterday") ∧
  (172800000 ≤ age < 604800000 ∨ age < 0 →
     label = default "" (days !! getDay (Message.createdAt m))) ∧
  (604800000 ≤ age → label = toLocaleDateString (Message.createdAt m)).
Proof.
  intros age label. unfold label, formatLastMessageTime. fold age.
  change (1000 * 60 * 60 * 24) with 86400000.
  pose proof (Z.div_mod age 86400000 ltac:(lia)) as Hdm.
  pose proof (Z.mod_pos_bound age 86400000 ltac:(lia)) as Hmod.
  split_and!; intros Hage; repeat case_decide; try done; lia.
Qed.

Lemma label_by_age_witness :
  formatLastMessageTime Runtime.clock Runtime.date Runtime.weekday
    (1000 + 90000000) (Some (Message.mk 0 "A" "B" "Hello" false 1000))
  = "Yesterday".
Proof.
  refine (proj1 (proj2 (label_by_age Runtime.clock Runtime.date Runtime.weekday
                          (1000 + 90000000) (Message.mk 0 "A" "B" "Hello" false 1000))) _).
  simpl. lia.
Defined.

(** A typing signal changes neither the registry nor the connections; it
    is pushed, with the user id of the sending socket, to the sockets in
    the room of the recipient and to no other; without a recipient id
    nothing happens at all. *)
Lemma typing_routed (s : Server.Socket) (data : option Server.TypingData)
    (st : Server.State) :
  let st' := Server.on_typing s data st in
  Server.onlineUsers st' = Server.onlineUsers st ∧
  Server.connections st' = Server.connections st ∧
  (∀ d rid, data = Some d → Server.recipientId d = Some rid → truthy rid = true →
     Server.delivered st'
     = Server.delivered st
       ++ ((λ c, (Server.id (Server.socket c),
                  Server.user_typing (Server.userId s) (Server.typing d)))
             <$> sessions_of st rid)) ∧
  ((∀ d, data = Some d → truthy_opt (Server.recipientId d) = false) → st' = st).
Proof.
  intros st'. unfold st', Server.on_typing. destruct data as [d|]; [|done].
  destruct (Server.recipientId d) as [rid|] eqn:Hrid; simpl.
  - destruct (truthy rid) eqn:Ht; split_and!; try done.
    + intros d0 rid0 [= <-] Hr _. rewrite Hrid in Hr. by injection Hr as <-.
    + intros H. specialize (H d eq_refl). rewrite Hrid in H. simpl in H. congruence.
    + intros d0 rid0 [= <-] Hr. rewrite Hrid in Hr. injection Hr as <-. congruence.
  - split_and!; try done. intros d0 rid0 [= <-] Hr. congruence.
Qed.

(** ** Who can appear in the contact list *)

Lemma elem_of_find (us : list User.t) (q : User.query) (c : User.t) :
  c ∈ User.find us q → c ∈ us.
Proof. unfold User.find. by intros [_ ?]%list_elem_of_filter. Qed.

Lemma eligible_users (us : list User.t) (cu c : User.t) : c ∈ eligible us cu → c ∈ us.
Proof.
  unfold eligible. repeat case_decide; rewrite ?elem_of_app.
  - intros [[Hc|Hc]|Hc]; [|by eapply elem_of_find..].
    destruct (User.mentor cu) as [mid|]; [|by apply elem_of_nil in Hc].
    destruct (User.findById us mid) as [m|] eqn:Hm; [|by apply elem_of_nil in Hc].
    apply list_elem_of_singleton in Hc as ->. by apply findById_Some in Hm as [? _].
  - intros [Hc|[Hc|[Hc|Hc]]]; [by apply elem_of_nil in Hc|by eapply elem_of_find..].
  - apply elem_of_find.
  - apply elem_of_find.
Qed.

Section contact_scope.
Context (localeCompare : string → string → Z).
Context (toLocaleTimeString toLocaleDateString : Z → string).
Context (getDay : Z → nat).

Local Abbreviation contacts_of :=
  (contacts_of localeCompare toLocaleTimeString toLocaleDateString getDay).

(** X23.  Every contact listed is a user of the store: a conversation
    partner whose account is gone drops out of the contact list (while
    [getConversations] keeps the preview, with a [null] user). *)
Theorem contacts_are_users (w : World) (me : string) (now : Z) :
  is_Some (User.findById (users w) me) →
  ∃ ids, contacts_of w me now = Some ids ∧
         ∀ i, i ∈ ids → ∃ u, u ∈ users w ∧ User._id u = i.
Proof.
  intros [cu Hcu].
  destruct (contacts_of_resolve localeCompare toLocaleTimeString toLocaleDateString
              getDay w me now cu Hcu) as (ids & Hids & Hperm).
  exists ids. split; [done|]. intros i. rewrite Hperm.
  intros (c & -> & [Hc|Hc]%mergeContacts_sound)%list_elem_of_fmap; exists c.
  - apply elem_of_partners in Hc as [? _]. done.
  - split; [|done]. by eapply eligible_users.
Qed.

(** X24.  An admin is given every user of the store but themselves, and
    nobody else. *)
Theorem admin_contacts (w : World) (me : string) (now : Z) (currentUser : User.t) :
  User.findById (users w) me = Some currentUser →
  User.role currentUser = "admin" →
  ∃ ids, contacts_of w me now = Some ids ∧
         ∀ i, i ∈ ids ↔ i ≠ me ∧ ∃ u, u ∈ users w ∧ User._id u = i.
Proof.
  intros Hcu Hrole.
  destruct (contacts_of_resolve localeCompare toLocaleTimeString toLocaleDateString
              getDay w me now currentUser Hcu) as (ids & Hids & Hperm).
  pose proof (findById_Some _ _ _ Hcu) as [_ Hme].
  assert (eligible (users w) currentUser = User.find (users w) (User.IdNe me)) as Hel.
  { unfold eligible. rewrite Hrole, Hme. done. }
  exists ids. split; [done|]. intros i. rewrite Hperm. unfold resolve. rewrite Hel, Hme.
  split.
  - intros (c & -> & [Hc|Hc]%mergeContacts_sound)%list_elem_of_fmap.
    + apply elem_of_partners in Hc as (? & ? & _). split; [done|]. by exists c.
    + apply list_elem_of_filter in Hc as [? ?]. split; [done|]. by exists c.
  - intros (Hne & u & Hu & <-). apply mergeContacts_covers.
    by apply list_elem_of_filter.
Qed.

End contact_scope.

Lemma contacts_are_users_witness :
  ∃ ids, Runtime.contacts Scenario.hello_sent "B" 2000 = Some ids ∧
         ∀ i, i ∈ ids → ∃ u, u ∈ users Scenario.hello_sent ∧ User._id u = i.
Proof.
  apply (contacts_are_users codeUnitCompare Runtime.clock Runtime.date Runtime.weekday).
  vm_compute. by eexists.
Defined.

Lemma admin_contacts_witness :
  ∃ ids, Runtime.contacts Scenario.empty "Z" 2000 = Some ids ∧
         ∀ i, i ∈ ids ↔ i ≠ "Z" ∧ ∃ u, u ∈ users Scenario.empty ∧ User._id u = i.
Proof.
  apply (admin_contacts codeUnitCompare Runtime.clock Runtime.date Runtime.weekday
           Scenario.empty "Z" 2000 Scenario.Z); reflexivity.
Defined.
